(** * simplelru: a cost-bounded LRU cache (src/simplelru/lru.go)

    A shallow embedding of the Go package [simplelru] and the proofs of the
    properties its specification states.

    Modelling choices, all taken from the source:

    - [int64] values ([maxCost], [evictListCost], the [cost] of an entry) are
      integers of [Z]; the two arithmetic statements of the package,
      [c.evictListCost += cost] and [c.evictListCost -= kv.cost], wrap
      around as Go's signed 64-bit arithmetic does ([wrap64]).  The counter
      [evicted] and the lengths are natural numbers: they are bounded by the
      number of elements of the list.
    - A [*list.Element] together with the [*entry] stored in its [Value] is
      a pointer [ptr]: an index in the arena [heap] of the entries allocated
      so far.  The index [items] and the recency list [evictList] both hold
      such pointers, so the assignment of [Add] that replaces the value of
      an entry already there is one write, seen through both.  Cells are
      never freed (Go collects them once unreachable, which no operation can
      observe).  A pointer without a cell stands for nil.
    - [container/list] is the sequence of its elements, front first.
    - The callback [onEvict] is either nil or a function of the caller's; the
      model keeps whether it is set and the trace [calls] of its invocations,
      in order.  A callback that re-enters the cache or panics is outside the
      model.
    - Keys are values of a type with decidable equality that can be hashed
      ([Countable]); a Go key that is not equal to itself (a NaN) or cannot
      be hashed is outside the model.
    - An operation returns normally with a result and the new state, panics
      (with the state reached when it does), or never returns ([outcome]). *)

From stdpp Require Import gmap list fin_maps.

Local Open Scope Z_scope.

(** ** int64 arithmetic *)

Definition min_int64 : Z := - 2 ^ 63.
Definition max_int64 : Z := 2 ^ 63 - 1.

Definition in_int64 (z : Z) : Prop := min_int64 ≤ z ≤ max_int64.

(** The value of a signed 64-bit result: reduction modulo 2^64 into
    [min_int64 .. max_int64]. *)
Definition wrap64 (z : Z) : Z := (z + 2 ^ 63) mod 2 ^ 64 - 2 ^ 63.

(** ** container/list, as far as the cache uses it *)

Abbreviation ptr := nat (only parsing).

Module List.

(** [l.PushFront(v)], for the freshly allocated element [e]. *)
Definition PushFront (e : ptr) (l : list ptr) : list ptr := e :: l.

(** [l.MoveToFront(e)]: nothing happens when [e] is not an element of [l]
    or is its front already. *)
Definition MoveToFront (e : ptr) (l : list ptr) : list ptr :=
  if decide (e ∈ l) then
    if decide (head l = Some e) then l
    else e :: filter (λ x, x ≠ e) l
  else l.

(** [l.Remove(e)]: nothing happens when [e] is not an element of [l].  An
    element is in a list once. *)
Definition Remove (e : ptr) (l : list ptr) : list ptr :=
  filter (λ x, x ≠ e) l.

(** [l.Back()]: nil on the empty list. *)
Definition Back (l : list ptr) : option ptr := last l.

(** [l.Len()] *)
Definition Len (l : list ptr) : nat := length l.

(** [l.Init()] *)
Definition Init (l : list ptr) : list ptr := [].

End List.

Section simplelru.

Context {K : Type} `{Countable K} {V : Type}.

(** ** Data *)

(** [type entry struct] *)
Record entry := Entry { key : K; value : V; cost : Z }.

(** [type LRU struct], with the memory of its entries and the trace of
    the callback's invocations [(key, value, cost)]. *)
Record LRU := mkLRU {
  maxCost : Z;
  evictList : list ptr;
  evictListCost : Z;
  items : gmap K ptr;
  onEvict : bool;
  heap : list entry;
  calls : list (K * V * Z)
}.

Definition set_maxCost (m : Z) (c : LRU) : LRU :=
  mkLRU m (evictList c) (evictListCost c) (items c) (onEvict c) (heap c) (calls c).
Definition set_evictList (l : list ptr) (c : LRU) : LRU :=
  mkLRU (maxCost c) l (evictListCost c) (items c) (onEvict c) (heap c) (calls c).
Definition set_evictListCost (z : Z) (c : LRU) : LRU :=
  mkLRU (maxCost c) (evictList c) z (items c) (onEvict c) (heap c) (calls c).
Definition set_items (m : gmap K ptr) (c : LRU) : LRU :=
  mkLRU (maxCost c) (evictList c) (evictListCost c) m (onEvict c) (heap c) (calls c).
Definition set_heap (h : list entry) (c : LRU) : LRU :=
  mkLRU (maxCost c) (evictList c) (evictListCost c) (items c) (onEvict c) h (calls c).
Definition set_calls (t : list (K * V * Z)) (c : LRU) : LRU :=
  mkLRU (maxCost c) (evictList c) (evictListCost c) (items c) (onEvict c) (heap c) t.

(** How a call ends. *)
Inductive outcome (A : Type) : Type :=
| Ret (a : A) (c : LRU)
| Panic (c : LRU)
| Diverge.
Global Arguments Ret {A} a c.
Global Arguments Panic {A} c.
Global Arguments Diverge {A}.

(** ** Operations *)

(** [func NewLRU(maxCost int64, onEvict EvictCallback)]:
    [None] is the error "must provide a positive size". *)
Definition NewLRU (maxCost : Z) (onEvict : bool) : option LRU :=
  if decide (maxCost ≤ 0) then None
  else Some (mkLRU maxCost [] 0 ∅ onEvict [] []).

(** [func (c *LRU) callOnEvict(e *entry)] *)
Definition callOnEvict (e : entry) (c : LRU) : LRU :=
  if onEvict c then set_calls (calls c ++ [(key e, value e, cost e)]) c
  else c.

(** [func (c *LRU) removeElement(e *list.Element)]; [kv.key] on a nil
    [kv] panics. *)
Definition removeElement (e : ptr) (c : LRU) : outcome unit :=
  let c := set_evictList (List.Remove e (evictList c)) c in
  match heap c !! e with
  | None => Panic c
  | Some kv =>
      let c := set_items (delete (key kv) (items c)) c in
      let c := set_evictListCost (wrap64 (evictListCost c - cost kv)) c in
      Ret tt (callOnEvict kv c)
  end.

(** [func (c *LRU) removeOldest()] *)
Definition removeOldest (c : LRU) : outcome unit :=
  match List.Back (evictList c) with
  | Some ent => removeElement ent c
  | None => Ret tt c
  end.

(** The loop
    [for c.evictListCost > c.maxCost { evicted++; c.removeOldest() }]
    of [Add] and [Resize].  An iteration on a non-empty list removes an
    element; an iteration on the empty list changes nothing, so that the
    loop then spins for ever.  With [fuel] above the length of the list,
    running out of fuel is that case (see [evictLoop_fuel]). *)
Fixpoint evictLoop (fuel : nat) (evicted : nat) (c : LRU) : outcome nat :=
  if decide (evictListCost c > maxCost c) then
    match fuel with
    | O => Diverge
    | S fuel =>
        match removeOldest c with
        | Ret _ c => evictLoop fuel (S evicted) c
        | Panic c => Panic c
        | Diverge => Diverge
        end
    end
  else Ret evicted c.

(** The loop, entered with [evicted] at 0. *)
Definition evict (c : LRU) : outcome nat :=
  evictLoop (S (length (evictList c))) 0 c.

(** [func (c *LRU) Add(key, value interface{}, cost int64) (evicted int)] *)
Definition Add (k : K) (v : V) (cst : Z) (c : LRU) : outcome nat :=
  match items c !! k with
  | Some ent =>
      let c := set_evictList (List.MoveToFront ent (evictList c)) c in
      match heap c !! ent with
      | Some e => Ret 0%nat (set_heap (<[ent := Entry (key e) v (cost e)]> (heap c)) c)
      | None => Panic c
      end
  | None =>
      if decide (cst > maxCost c) then Panic c
      else
        let ent := length (heap c) in
        let c := set_heap (heap c ++ [Entry k v cst]) c in
        let c := set_evictList (List.PushFront ent (evictList c)) c in
        let c := set_evictListCost (wrap64 (evictListCost c + cst)) c in
        let c := set_items (<[k := ent]> (items c)) c in
        evict c
  end.

(** [func (c *LRU) Get(key interface{}) (value interface{}, ok bool)]:
    [None] is [(nil, false)]. *)
Definition Get (k : K) (c : LRU) : outcome (option V) :=
  match items c !! k with
  | Some ent =>
      let c := set_evictList (List.MoveToFront ent (evictList c)) c in
      match heap c !! ent with
      | None => Ret None c
      | Some e => Ret (Some (value e)) c
      end
  | None => Ret None c
  end.

(** [func (c *LRU) Contains(key interface{}) (ok bool)] *)
Definition Contains (k : K) (c : LRU) : outcome bool :=
  Ret (bool_decide (is_Some (items c !! k))) c.

(** [func (c *LRU) Peek(key interface{}) (value interface{}, ok bool)] *)
Definition Peek (k : K) (c : LRU) : outcome (option V) :=
  match items c !! k with
  | Some ent =>
      match heap c !! ent with
      | Some e => Ret (Some (value e)) c
      | None => Panic c
      end
  | None => Ret None c
  end.

(** [func (c *LRU) Remove(key interface{}) (present bool)] *)
Definition Remove (k : K) (c : LRU) : outcome bool :=
  match items c !! k with
  | Some ent =>
      match removeElement ent c with
      | Ret _ c => Ret true c
      | Panic c => Panic c
      | Diverge => Diverge
      end
  | None => Ret false c
  end.

(** [func (c *LRU) RemoveOldest() (key, value interface{}, ok bool)]:
    [None] is [(nil, nil, false)]. *)
Definition RemoveOldest (c : LRU) : outcome (option (K * V)) :=
  match List.Back (evictList c) with
  | Some ent =>
      match removeElement ent c with
      | Ret _ c =>
          match heap c !! ent with
          | Some kv => Ret (Some (key kv, value kv)) c
          | None => Panic c
          end
      | Panic c => Panic c
      | Diverge => Diverge
      end
  | None => Ret None c
  end.

(** [func (c *LRU) GetOldest() (key, value interface{}, ok bool)] *)
Definition GetOldest (c : LRU) : outcome (option (K * V)) :=
  match List.Back (evictList c) with
  | Some ent =>
      match heap c !! ent with
      | Some kv => Ret (Some (key kv, value kv)) c
      | None => Panic c
      end
  | None => Ret None c
  end.

(** The loop of [Keys]: [walk] is the list from [ent] towards the front,
    [keys[i] = ...] panics when [i] is out of range.  A slot of the slice
    is [None] while it holds the nil it was made with. *)
Fixpoint Keys_loop (walk : list ptr) (i : nat) (keys : list (option K))
    (c : LRU) : outcome (list (option K)) :=
  match walk with
  | [] => Ret keys c
  | ent :: walk =>
      match heap c !! ent with
      | None => Panic c
      | Some e =>
          if decide (i < length keys)%nat
          then Keys_loop walk (S i) (<[i := Some (key e)]> keys) c
          else Panic c
      end
  end.

(** [func (c *LRU) Keys() []interface{}] *)
Definition Keys (c : LRU) : outcome (list (option K)) :=
  Keys_loop (reverse (evictList c)) 0 (replicate (size (items c)) None) c.

(** [func (c *LRU) Len() int] *)
Definition Len (c : LRU) : outcome nat := Ret (List.Len (evictList c)) c.

(** [func (c *LRU) Cost() int64] *)
Definition Cost (c : LRU) : outcome Z := Ret (evictListCost c) c.

(** [func (c *LRU) Resize(maxCost int64) (evicted int)] *)
Definition Resize (m : Z) (c : LRU) : outcome nat :=
  if decide (m ≤ 0) then Panic c
  else evict (set_maxCost m c).

(** The loop [for k, v := range c.items] of [Purge].  Go leaves the order
    of the iteration open; every iteration deletes the key it is at, so
    each entry of the map is visited once: [order] is the order of the
    visits. *)
Fixpoint Purge_loop (order : list (K * ptr)) (c : LRU) : outcome unit :=
  match order with
  | [] => Ret tt c
  | (k, v) :: order =>
      match heap c !! v with
      | Some en =>
          let c := callOnEvict en c in
          Purge_loop order (set_items (delete k (items c)) c)
      | None =>
          if onEvict c then Panic c
          else Purge_loop order (set_items (delete k (items c)) c)
      end
  end.

(** [func (c *LRU) Purge()], for the iteration order [order]. *)
Definition Purge (order : list (K * ptr)) (c : LRU) : outcome unit :=
  match Purge_loop order c with
  | Ret _ c =>
      let c := set_evictList (List.Init (evictList c)) c in
      Ret tt (set_evictListCost 0 c)
  | Panic c => Panic c
  | Diverge => Diverge
  end.

(** ** Sequences of calls *)

(** The loop of the README's example,
    [for i := 0; i < 256; i++ { l.Add(i, nil, 2) }], for any list of
    [(key, value, cost)]: the calls of [Add] in order, with the sum of the
    counts they return. *)
Fixpoint AddAll (l : list (K * V * Z)) (c : LRU) : outcome nat :=
  match l with
  | [] => Ret 0%nat c
  | (k, v, cst) :: l =>
      match Add k v cst c with
      | Ret n c =>
          match AddAll l c with
          | Ret m c => Ret (n + m)%nat c
          | Panic c => Panic c
          | Diverge => Diverge
          end
      | Panic c => Panic c
      | Diverge => Diverge
      end
  end.

(** The public operations, as a caller issues them.  [OpPurge] carries the
    order in which Go happens to iterate the map. *)
Inductive op : Type :=
| OpAdd (k : K) (v : V) (cst : Z)
| OpGet (k : K)
| OpContains (k : K)
| OpPeek (k : K)
| OpRemove (k : K)
| OpRemoveOldest
| OpGetOldest
| OpKeys
| OpLen
| OpCost
| OpResize (m : Z)
| OpPurge (order : list (K * ptr)).

Definition state_of {A : Type} (r : outcome A) : option LRU :=
  match r with
  | Ret _ c => Some c
  | Panic _ => None
  | Diverge => None
  end.

(** The state after [o] returns normally; [None] when it does not. *)
Definition exec (o : op) (c : LRU) : option LRU :=
  match o with
  | OpAdd k v cst => state_of (Add k v cst c)
  | OpGet k => state_of (Get k c)
  | OpContains k => state_of (Contains k c)
  | OpPeek k => state_of (Peek k c)
  | OpRemove k => state_of (Remove k c)
  | OpRemoveOldest => state_of (RemoveOldest c)
  | OpGetOldest => state_of (GetOldest c)
  | OpKeys => state_of (Keys c)
  | OpLen => state_of (Len c)
  | OpCost => state_of (Cost c)
  | OpResize m => state_of (Resize m c)
  | OpPurge order => state_of (Purge order c)
  end.

(** Arguments a Go caller can pass: [int64] values, and for [Purge] an
    order that visits each entry of the map once. *)
Definition valid_op (c : LRU) (o : op) : Prop :=
  match o with
  | OpAdd _ _ cst => in_int64 cst
  | OpResize m => in_int64 m
  | OpPurge order => order ≡ₚ map_to_list (items c)
  | _ => True
  end.

(** The stores a caller can get: made by [NewLRU], then changed by
    operations that return normally, each allowed by [P]. *)
Inductive reachable_by (P : LRU → op → Prop) : LRU → Prop :=
| reach_new m cb c :
    in_int64 m → NewLRU m cb = Some c → reachable_by P c
| reach_step c o c' :
    reachable_by P c → valid_op c o → P c o → exec o c = Some c' →
    reachable_by P c'.

Definition any_op (c : LRU) (o : op) : Prop := True.

Definition reachable : LRU → Prop := reachable_by any_op.

(** [Add] is called with costs that are not negative. *)
Definition nonneg_costs (c : LRU) (o : op) : Prop :=
  match o with
  | OpAdd _ _ cst => 0 ≤ cst
  | _ => True
  end.

(** [Add] is called with costs that are not negative and that the
    accumulator can take without wrapping around. *)
Definition no_overflow (c : LRU) (o : op) : Prop :=
  match o with
  | OpAdd _ _ cst => 0 ≤ cst ∧ evictListCost c + cst ≤ max_int64
  | _ => True
  end.

(** [Add] is called with costs that are not negative, and [Remove] and
    [RemoveOldest] are not called. *)
Definition no_removal (c : LRU) (o : op) : Prop :=
  match o with
  | OpAdd _ _ cst => 0 ≤ cst
  | OpRemove _ => False
  | OpRemoveOldest => False
  | _ => True
  end.

(** ** The representation invariant *)

(** The entries of the elements [l], in the order of [l]. *)
Definition ents (h : list entry) (l : list ptr) : list entry :=
  omap (λ p, h !! p) l.

Definition sum_costs (es : list entry) : Z :=
  foldr (λ e z, cost e + z) 0 es.

(** The arguments [callOnEvict] passes for [e]. *)
Definition call_of (e : entry) : K * V * Z := (key e, value e, cost e).

(** The entries of the recency list, front (most recent) first. *)
Definition resident (c : LRU) : list entry := ents (heap c) (evictList c).

(** The index and the recency list hold the same elements, one per key, and
    the accumulator is the (wrapped) sum of their costs. *)
Record wf (c : LRU) : Prop := mk_wf {
  wf_maxCost : 0 < maxCost c;
  wf_NoDup : NoDup (evictList c);
  wf_list : ∀ p, p ∈ evictList c →
    ∃ e, heap c !! p = Some e ∧ items c !! key e = Some p;
  wf_items : ∀ k p, items c !! k = Some p →
    p ∈ evictList c ∧ ∃ e, heap c !! p = Some e ∧ key e = k;
  wf_cost : evictListCost c = wrap64 (sum_costs (resident c))
}.

(** [c'] is [c] with the elements [gone] taken off the back of the recency
    list, the last of [gone] first. *)
Record evicted_back (c : LRU) (gone : list ptr) (c' : LRU) : Prop := mk_evicted_back {
  eb_list : evictList c = evictList c' ++ gone;
  eb_items : ∀ k, items c' !! k =
    if decide (k ∈ key <$> ents (heap c) gone) then None else items c !! k;
  eb_cost : evictListCost c' =
    wrap64 (evictListCost c - sum_costs (ents (heap c) gone));
  eb_calls : calls c' = calls c ++
    (if onEvict c then call_of <$> ents (heap c) (reverse gone) else []);
  eb_heap : heap c' = heap c;
  eb_maxCost : maxCost c' = maxCost c;
  eb_onEvict : onEvict c' = onEvict c
}.

(** [c'] is [c] with the element [p], which holds [e], taken out of the
    recency list and the index, as [removeElement] does. *)
Record removed (c : LRU) (p : ptr) (e : entry) (c' : LRU) : Prop := mk_removed {
  rm_list : evictList c' = List.Remove p (evictList c);
  rm_items : items c' = delete (key e) (items c);
  rm_cost : evictListCost c' = wrap64 (evictListCost c - cost e);
  rm_calls : calls c' = calls c ++ (if onEvict c then [call_of e] else []);
  rm_heap : heap c' = heap c;
  rm_maxCost : maxCost c' = maxCost c;
  rm_onEvict : onEvict c' = onEvict c
}.

(** [c] with the element [p] first in the recency list and the others in
    the order they had. *)
Definition promoted (p : ptr) (c : LRU) : LRU :=
  set_evictList (p :: List.Remove p (evictList c)) c.

(** [c] after [Add] has found [p], which holds [e], for its key: [p] is
    promoted and its value is [v]; nothing else differs. *)
Definition replaced (p : ptr) (e : entry) (v : V) (c : LRU) : LRU :=
  set_heap (<[p := Entry (key e) v (cost e)]> (heap c)) (promoted p c).

(** [c] after [Add] has inserted a new entry and before it evicts. *)
Definition pushed (k : K) (v : V) (cst : Z) (c : LRU) : LRU :=
  mkLRU (maxCost c) (length (heap c) :: evictList c)
    (wrap64 (evictListCost c + cst)) (<[k := length (heap c)]> (items c))
    (onEvict c) (heap c ++ [Entry k v cst]) (calls c).

(** The costs of the resident entries are not negative and their sum, as an
    integer, is within [maxCost]. *)
Definition within_budget (c : LRU) : Prop :=
  Forall (λ e, 0 ≤ cost e) (resident c) ∧
  sum_costs (resident c) ≤ maxCost c ∧
  maxCost c ≤ max_int64.

(** ** Callers *)

(** A caller that empties the store from the old end,
    [for { k, v, ok := c.RemoveOldest(); if !ok { break }; ... }], for at
    most [n] rounds: the keys and values it gets, in order. *)
Fixpoint drain (n : nat) (c : LRU) : outcome (list (K * V)) :=
  match n with
  | O => Ret [] c
  | S n =>
      match RemoveOldest c with
      | Ret (Some kv) c =>
          match drain n c with
          | Ret kvs c => Ret (kv :: kvs) c
          | Panic c => Panic c
          | Diverge => Diverge
          end
      | Ret None c => Ret [] c
      | Panic c => Panic c
      | Diverge => Diverge
      end
  end.

(** The number of entries [o] brings into the store: one for an [Add] of a
    key that is not resident. *)
Definition inserts (c : LRU) (o : op) : nat :=
  match o with
  | OpAdd k _ _ =>
      match items c !! k with Some _ => 0%nat | None => 1%nat end
  | _ => 0%nat
  end.

(** The operations that only read. *)
Definition reads_only (o : op) : bool :=
  match o with
  | OpContains _ | OpPeek _ | OpGetOldest | OpKeys | OpLen | OpCost => true
  | _ => false
  end.

(** [Add] is called with costs that are not negative, on a store whose
    ceiling is at most [2^62 - 1]. *)
Definition small_ceiling (c : LRU) (o : op) : Prop :=
  match o with
  | OpAdd _ _ cst => 0 ≤ cst ∧ maxCost c ≤ 2 ^ 62 - 1
  | _ => True
  end.

End simplelru.

Global Arguments entry : clear implicits.
Global Arguments LRU K {_ _} V.
Global Arguments op K V : clear implicits.

(** ** Stores to try the operations on *)

(** The store after [NewLRU(10, cb)], [Add(1, 100, 2)], [Add(2, 200, 3)],
    with keys and values in [Z]. *)
Definition demo : LRU Z Z :=
  mkLRU 10 [1; 0]%nat 5 (<[2 := 1%nat]> (<[1 := 0%nat]> ∅)) true
    [Entry 1 100 2; Entry 2 200 3] [].

(** The store after [NewLRU(1<<62, nil)], [Add(1, nil, 1<<62)],
    [Add(2, nil, 1<<62)], [Add(3, nil, 1)], [Remove(2)]: the second [Add]
    wraps the accumulator to [-1<<63], and [Remove] wraps it back to
    [1<<62 + 1], above [maxCost]. *)
Definition overflow_store : LRU Z unit :=
  mkLRU (2 ^ 62) [2; 0]%nat (2 ^ 62 + 1) (<[3 := 2%nat]> (<[1 := 0%nat]> ∅))
    false [Entry 1 tt (2 ^ 62); Entry 2 tt (2 ^ 62); Entry 3 tt 1] [].

(** The store after [NewLRU(1<<62, nil)], [Add(1, nil, 1<<62)],
    [Add(2, nil, 1<<62)], [Add(3, nil, 100)], [Remove(2)]: as for
    [overflow_store] the accumulator has wrapped twice, and is now
    [1<<62 + 100], 100 above [maxCost]. *)
Definition raised_store : LRU Z unit :=
  mkLRU (2 ^ 62) [2; 0]%nat (2 ^ 62 + 100)
    (<[3 := 2%nat]> (<[1 := 0%nat]> ∅))
    false [Entry 1 tt (2 ^ 62); Entry 2 tt (2 ^ 62); Entry 3 tt 100] [].

(** The 256 calls of the README's example, [l.Add(i, nil, 2)] for [i] from
    0 to 255. *)
Definition readme_adds : list (Z * unit * Z) :=
  (λ i : nat, (Z.of_nat i, tt, 2)) <$> seq 0 256.

(** * Proofs *)

(** ** int64 arithmetic *)

Lemma wrap64_id z : in_int64 z → wrap64 z = z.
Proof.
  unfold in_int64, min_int64, max_int64, wrap64. intros Hz.
  rewrite Z.mod_small; lia.
Qed.

Lemma wrap64_range z : in_int64 (wrap64 z).
Proof.
  unfold in_int64, min_int64, max_int64, wrap64.
  pose proof (Z.mod_pos_bound (z + 2 ^ 63) (2 ^ 64)). lia.
Qed.

Lemma wrap64_add_l a b : wrap64 (wrap64 a + b) = wrap64 (a + b).
Proof.
  unfold wrap64. f_equal.
  replace ((a + 2 ^ 63) mod 2 ^ 64 - 2 ^ 63 + b + 2 ^ 63)
    with ((a + 2 ^ 63) mod 2 ^ 64 + b) by lia.
  rewrite Zplus_mod_idemp_l. f_equal. lia.
Qed.

Lemma wrap64_sub_l a b : wrap64 (wrap64 a - b) = wrap64 (a - b).
Proof.
  replace (wrap64 a - b) with (wrap64 a + - b) by lia.
  rewrite wrap64_add_l. f_equal; lia.
Qed.

(** ** Lists of pointers *)

Lemma filter_ne_notin (p : ptr) (l : list ptr) :
  p ∉ l → filter (λ x, x ≠ p) l = l.
Proof.
  induction l as [|x l IH]; [done|].
  intros Hp. apply not_elem_of_cons in Hp as [Hne Hp].
  rewrite filter_cons_True by congruence. by rewrite IH.
Qed.

Lemma filter_ne_middle (p : ptr) (l1 l2 : list ptr) :
  NoDup (l1 ++ p :: l2) →
  filter (λ x, x ≠ p) (l1 ++ p :: l2) = l1 ++ l2.
Proof.
  intros Hnd. apply NoDup_app in Hnd as (_ & Hdisj & Hnd2).
  apply NoDup_cons in Hnd2 as [Hp2 _].
  rewrite filter_app, filter_cons_False by (intros Hne; by apply Hne).
  rewrite (filter_ne_notin p l2) by done.
  rewrite filter_ne_notin; [done|].
  intros Hp1. apply (Hdisj p Hp1). by left.
Qed.

Lemma Remove_back (p : ptr) (l : list ptr) :
  NoDup (l ++ [p]) → List.Remove p (l ++ [p]) = l.
Proof.
  intros Hnd. unfold List.Remove.
  rewrite (filter_ne_middle p l []) by done. by rewrite app_nil_r.
Qed.

Lemma Remove_perm (p : ptr) (l : list ptr) :
  NoDup l → p ∈ l → p :: List.Remove p l ≡ₚ l.
Proof.
  intros Hnd Hp. apply list_elem_of_split in Hp as (l1 & l2 & ->).
  unfold List.Remove. rewrite filter_ne_middle by done.
  by rewrite Permutation_middle.
Qed.

(** Moving an element to the front puts it first and keeps the order of the
    others. *)
Lemma MoveToFront_eq (p : ptr) (l : list ptr) :
  NoDup l → p ∈ l → List.MoveToFront p l = p :: List.Remove p l.
Proof.
  intros Hnd Hp. unfold List.MoveToFront.
  rewrite decide_True by done.
  destruct (decide (head l = Some p)) as [Hh|]; [|done].
  destruct l as [|x l]; simplify_eq/=.
  apply NoDup_cons in Hnd as [Hx _]. unfold List.Remove.
  rewrite filter_cons_False by (intros Hne; by apply Hne).
  by rewrite filter_ne_notin.
Qed.

Section proofs.

Context {K : Type} `{Countable K} {V : Type}.

Implicit Types (c : LRU K V) (e : entry K V) (h : list (entry K V)).
Implicit Types (l gone : list ptr) (p : ptr) (k : K) (v : V).

(** ** Entries and their costs *)

Lemma ents_app h l1 l2 : ents h (l1 ++ l2) = ents h l1 ++ ents h l2.
Proof. apply omap_app. Qed.

Lemma ents_cons h p l e :
  h !! p = Some e → ents h (p :: l) = e :: ents h l.
Proof. intros Hp. unfold ents. simpl. by rewrite Hp. Qed.

Lemma ents_perm h l1 l2 : l1 ≡ₚ l2 → ents h l1 ≡ₚ ents h l2.
Proof. intros Hp. unfold ents. by rewrite Hp. Qed.

Lemma sum_costs_app (es1 es2 : list (entry K V)) :
  sum_costs (es1 ++ es2) = sum_costs es1 + sum_costs es2.
Proof. induction es1 as [|e es1 IH]; simpl; lia. Qed.

Lemma sum_costs_perm (es1 es2 : list (entry K V)) :
  es1 ≡ₚ es2 → sum_costs es1 = sum_costs es2.
Proof. induction 1; simpl; lia. Qed.

(** Entries read through a heap that agrees on the elements of [l]. *)
Lemma ents_ext h h' l :
  (∀ p, p ∈ l → h' !! p = h !! p) → ents h' l = ents h l.
Proof.
  intros Hh. induction l as [|p l IH]; [done|].
  assert (ents h' l = ents h l) as IH'.
  { apply IH. intros q Hq. apply Hh. by right. }
  change (ents h' (p :: l))
    with (match h' !! p with Some e => e :: ents h' l | None => ents h' l end).
  change (ents h (p :: l))
    with (match h !! p with Some e => e :: ents h l | None => ents h l end).
  rewrite Hh by left. by rewrite IH'.
Qed.

Lemma ents_length h l :
  (∀ p, p ∈ l → is_Some (h !! p)) → length (ents h l) = length l.
Proof.
  induction l as [|p l IH]; [done|]. intros Hh.
  destruct (Hh p) as [e He]; [by left|].
  rewrite (ents_cons _ _ _ _ He). simpl. f_equal. apply IH.
  intros q Hq. apply Hh. by right.
Qed.

(** ** Removing an element *)

Lemma removeElement_spec c p e :
  heap c !! p = Some e →
  ∃ c', removeElement p c = Ret tt c' ∧ removed c p e c'.
Proof.
  intros He. unfold removeElement. simpl. rewrite He.
  eexists. split; [done|].
  unfold callOnEvict. simpl.
  destruct (onEvict c) eqn:Hcb; split; simpl; rewrite ?Hcb; try done.
  by rewrite app_nil_r.
Qed.

Lemma removeElement_nil c p :
  heap c !! p = None →
  removeElement p c = Panic (set_evictList (List.Remove p (evictList c)) c).
Proof. intros He. unfold removeElement. simpl. by rewrite He. Qed.

Lemma wf_in_int64 c : wf c → in_int64 (evictListCost c).
Proof. intros Hwf. rewrite (wf_cost _ Hwf). apply wrap64_range. Qed.

Lemma wf_key_inj c p q e e' :
  wf c → p ∈ evictList c → q ∈ evictList c →
  heap c !! p = Some e → heap c !! q = Some e' → key e = key e' → p = q.
Proof.
  intros Hwf Hp Hq He He' Hk.
  destruct (wf_list _ Hwf p Hp) as (e1 & He1 & Hi1).
  destruct (wf_list _ Hwf q Hq) as (e2 & He2 & Hi2).
  simplify_eq. congruence.
Qed.

Lemma removed_wf c p e c' :
  wf c → p ∈ evictList c → heap c !! p = Some e → removed c p e c' → wf c'.
Proof.
  intros Hwf Hp He Hrm. destruct Hrm as [Hl Hi Hc _ Hh Hm _].
  split.
  - rewrite Hm. apply Hwf.
  - rewrite Hl. apply NoDup_filter, Hwf.
  - intros q Hq. rewrite Hl in Hq. apply list_elem_of_filter in Hq as [Hne Hq].
    destruct (wf_list _ Hwf q Hq) as (e' & He' & Hi').
    exists e'. rewrite Hh, Hi. split; [done|].
    rewrite lookup_delete_ne; [done|].
    intros Hk. apply Hne. symmetry. by eapply wf_key_inj.
  - intros k q Hq. rewrite Hi in Hq.
    apply lookup_delete_Some in Hq as [Hk Hq].
    destruct (wf_items _ Hwf k q Hq) as (Hin & e' & He' & Hk').
    rewrite Hl, Hh. split; [|by exists e'].
    apply list_elem_of_filter. split; [|done].
    intros ->. by simplify_eq.
  - rewrite Hc, (wf_cost _ Hwf), wrap64_sub_l. f_equal.
    unfold resident. rewrite Hh, Hl.
    rewrite (sum_costs_perm _ _ (ents_perm (heap c) _ _
      (Permutation_sym (Remove_perm p (evictList c) (wf_NoDup _ Hwf) Hp)))).
    rewrite (ents_cons _ _ _ _ He). simpl. lia.
Qed.

Lemma removed_length c p e c' :
  p ∈ evictList c → removed c p e c' →
  (length (evictList c') < length (evictList c))%nat.
Proof.
  intros Hp Hrm. rewrite (rm_list _ _ _ _ Hrm).
  apply (length_filter_lt _ _ p); [done|]. intros Hne. by apply Hne.
Qed.

(** ** The eviction loop *)

Lemma evictLoop_spin fuel ev c :
  evictList c = [] → evictListCost c > maxCost c →
  evictLoop fuel ev c = Diverge.
Proof.
  intros Hl Hc. revert ev. induction fuel as [|fuel IH]; intros ev; simpl.
  - by rewrite decide_True.
  - rewrite decide_True by done. unfold removeOldest. rewrite Hl. simpl.
    apply IH.
Qed.

(** Above the length of the list the fuel does not matter: the loop returns,
    panics or spins the same. *)
Lemma evictLoop_fuel f1 f2 ev c :
  (length (evictList c) < f1)%nat → (length (evictList c) < f2)%nat →
  evictLoop f1 ev c = evictLoop f2 ev c.
Proof.
  revert f2 ev c. induction f1 as [|f1 IH]; intros f2 ev c Hf1 Hf2; [lia|].
  destruct f2 as [|f2]; [lia|]. simpl.
  destruct (decide (evictListCost c > maxCost c)) as [Hc|]; [|done].
  unfold removeOldest, List.Back.
  destruct (last (evictList c)) as [p|] eqn:Hlast.
  - pose proof Hlast as Hin%last_Some_elem_of.
    destruct (heap c !! p) as [e|] eqn:He.
    + destruct (removeElement_spec c p e He) as (c1 & -> & Hrm).
      pose proof (removed_length _ _ _ _ Hin Hrm).
      apply IH; lia.
    + by rewrite removeElement_nil.
  - apply last_None in Hlast.
    by rewrite !evictLoop_spin.
Qed.

Lemma evicted_back_nil c : in_int64 (evictListCost c) → evicted_back c [] c.
Proof.
  intros Hc. split; try done.
  - by rewrite app_nil_r.
  - simpl. rewrite Z.sub_0_r. by rewrite wrap64_id.
  - simpl. destruct (onEvict c); by rewrite app_nil_r.
Qed.

Lemma evicted_back_snoc c keep p e c1 gone c' :
  NoDup (evictList c) → evictList c = keep ++ [p] → heap c !! p = Some e →
  removed c p e c1 → evicted_back c1 gone c' →
  evicted_back c (gone ++ [p]) c'.
Proof.
  intros Hnd Hl He [Hl1 Hi1 Hc1 Ht1 Hh1 Hm1 Hcb1] [Hl2 Hi2 Hc2 Ht2 Hh2 Hm2 Hcb2].
  rewrite Hl in Hnd, Hl1. rewrite Remove_back in Hl1 by done.
  rewrite Hh1 in *. rewrite Hcb1 in *.
  assert (ents (heap c) (gone ++ [p]) = ents (heap c) gone ++ [e]) as Hents.
  { by rewrite ents_app, (ents_cons _ _ _ _ He). }
  split.
  - by rewrite Hl, (assoc_L (++)), <- Hl2, Hl1.
  - intros k. rewrite Hi2, Hi1, Hents, fmap_app. simpl.
    destruct (decide (k ∈ key <$> ents (heap c) gone)) as [Hk|Hk].
    + rewrite decide_True; [done|]. apply elem_of_app. by left.
    + destruct (decide (k = key e)) as [->|Hne].
      * rewrite lookup_delete_eq, decide_True; [done|].
        apply elem_of_app. right. by left.
      * rewrite lookup_delete_ne by done. rewrite decide_False; [done|].
        intros [?|?%list_elem_of_singleton]%elem_of_app; done.
  - rewrite Hc2, Hc1, wrap64_sub_l, Hents, sum_costs_app. simpl.
    f_equal. lia.
  - rewrite Ht2, Ht1, reverse_snoc, (ents_cons _ _ _ _ He).
    destruct (onEvict c); simpl; [|by rewrite !app_nil_r].
    by rewrite <- (assoc_L (++)).
  - by rewrite Hh2.
  - by rewrite Hm2.
  - by rewrite Hcb2.
Qed.

Lemma wf_back c :
  wf c → evictListCost c > maxCost c →
  ∃ keep p e, evictList c = keep ++ [p] ∧ heap c !! p = Some e.
Proof.
  intros Hwf Hc.
  destruct (last (evictList c)) as [p|] eqn:Hlast.
  - pose proof Hlast as Hin%last_Some_elem_of.
    apply last_Some in Hlast as [keep Hl].
    destruct (wf_list _ Hwf p Hin) as (e & He & _). by exists keep, p, e.
  - apply last_None in Hlast. pose proof (wf_cost _ Hwf) as Hs.
    unfold resident in Hs. rewrite Hlast in Hs. simpl in Hs.
    pose proof (wf_maxCost _ Hwf). rewrite wrap64_id in Hs; [lia|].
    unfold in_int64, min_int64, max_int64. lia.
Qed.

(** On a well-formed store the loop returns: it took [gone] off the back,
    one element per round, and stopped at the first round that found the
    accumulator within [maxCost]. *)
Lemma evictLoop_spec fuel ev c :
  wf c → (length (evictList c) < fuel)%nat →
  ∃ gone c',
    evictLoop fuel ev c = Ret (ev + length gone)%nat c' ∧
    evicted_back c gone c' ∧ wf c' ∧
    evictListCost c' ≤ maxCost c' ∧
    (∀ g1 g2, gone = g2 ++ g1 → g2 ≠ [] →
       maxCost c < wrap64 (evictListCost c - sum_costs (ents (heap c) g1))).
Proof.
  revert ev c. induction fuel as [|fuel IH]; intros ev c Hwf Hfuel; [lia|].
  simpl. destruct (decide (evictListCost c > maxCost c)) as [Hc|Hc].
  - destruct (wf_back c Hwf Hc) as (keep & p & e & Hl & He).
    assert (p ∈ evictList c) as Hin.
    { rewrite Hl. apply elem_of_app. right. by left. }
    unfold removeOldest, List.Back. rewrite Hl, last_snoc.
    destruct (removeElement_spec c p e He) as (c1 & -> & Hrm).
    pose proof (removed_wf _ _ _ _ Hwf Hin He Hrm) as Hwf1.
    pose proof (removed_length _ _ _ _ Hin Hrm) as Hlen.
    destruct (IH (S ev) c1 Hwf1) as (gone & c' & Hrun & Heb & Hwf' & Hle & Hmin);
      [lia|].
    exists (gone ++ [p]), c'. rewrite Hrun, length_app. simpl.
    split; [f_equal; lia|].
    split; [by eapply evicted_back_snoc; eauto using wf_NoDup|].
    split; [done|]. split; [done|].
    intros g1 g2 Hg Hg2.
    destruct g1 as [|x g1 _] using rev_ind.
    + simpl. rewrite Z.sub_0_r, wrap64_id by by apply wf_in_int64. lia.
    + rewrite (assoc_L (++)) in Hg. apply app_inj_tail in Hg as [-> ->].
      specialize (Hmin g1 g2 eq_refl Hg2).
      rewrite (rm_maxCost _ _ _ _ Hrm), (rm_cost _ _ _ _ Hrm),
        (rm_heap _ _ _ _ Hrm), wrap64_sub_l in Hmin.
      rewrite ents_app, (ents_cons _ _ _ _ He), sum_costs_app. simpl.
      replace (evictListCost c - (sum_costs (ents (heap c) g1) + (cost e + 0)))
        with (evictListCost c - cost e - sum_costs (ents (heap c) g1)) by lia.
      done.
  - exists [], c. simpl. rewrite Nat.add_0_r.
    split; [done|]. split; [by apply evicted_back_nil, wf_in_int64|].
    split; [done|]. split; [lia|].
    intros g1 g2 Hg Hg2. by destruct g2.
Qed.

(** ** The invariant is kept *)

Lemma wf_NewLRU m cb c : NewLRU m cb = Some c → wf c.
Proof.
  unfold NewLRU. destruct (decide (m ≤ 0)); [done|]. intros [= <-].
  split; simpl; try done.
  - lia.
  - apply NoDup_nil_2.
  - intros p Hp. by apply elem_of_nil in Hp.
Qed.

Lemma wf_set_maxCost m c : 0 < m → wf c → wf (set_maxCost m c).
Proof. intros Hm [? ? ? ? ?]. by split. Qed.

Lemma wf_ptr_lt c p : wf c → p ∈ evictList c → (p < length (heap c))%nat.
Proof.
  intros Hwf Hp. destruct (wf_list _ Hwf p Hp) as (e & He & _).
  by eapply lookup_lt_Some.
Qed.

Lemma wf_permuted l c :
  wf c → l ≡ₚ evictList c → wf (set_evictList l c).
Proof.
  intros [Hm Hnd Hl Hi Hc] Hp. split; simpl.
  - done.
  - by rewrite Hp.
  - intros p Hin. rewrite Hp in Hin. by apply Hl.
  - intros k p Hk. rewrite Hp. by apply Hi.
  - rewrite Hc. f_equal. unfold resident. simpl.
    apply sum_costs_perm, ents_perm. by symmetry.
Qed.

Lemma wf_promoted p c : wf c → p ∈ evictList c → wf (promoted p c).
Proof.
  intros Hwf Hp. apply wf_permuted; [done|].
  apply Remove_perm; [apply Hwf|done].
Qed.

Lemma sum_costs_ext h h' l :
  (∀ p, p ∈ l → cost <$> h' !! p = cost <$> h !! p) →
  sum_costs (ents h' l) = sum_costs (ents h l).
Proof.
  induction l as [|p l IH]; [done|]. intros Hh.
  assert (sum_costs (ents h' l) = sum_costs (ents h l)) as IH'.
  { apply IH. intros q Hq. apply Hh. by right. }
  specialize (Hh p (list_elem_of_here _ _)).
  change (ents h' (p :: l))
    with (match h' !! p with Some e => e :: ents h' l | None => ents h' l end).
  change (ents h (p :: l))
    with (match h !! p with Some e => e :: ents h l | None => ents h l end).
  destruct (h' !! p), (h !! p); simplify_eq/=; lia.
Qed.

(** Writing a value into an entry leaves the invariant alone. *)
Lemma wf_set_value c p e v :
  wf c → heap c !! p = Some e →
  wf (set_heap (<[p := Entry (key e) v (cost e)]> (heap c)) c).
Proof.
  intros [Hm Hnd Hl Hi Hc] He.
  pose proof (lookup_lt_Some _ _ _ He) as Hlt.
  assert (∀ q e0, heap c !! q = Some e0 →
    ∃ e', <[p := Entry (key e) v (cost e)]> (heap c) !! q = Some e' ∧
          key e' = key e0 ∧ cost e' = cost e0) as Hsame.
  { intros q e0 Hq. destruct (decide (q = p)) as [->|Hne].
    - rewrite list_lookup_insert_eq by done. rewrite He in Hq.
      injection Hq as <-. eexists. split; [reflexivity|done].
    - rewrite list_lookup_insert_ne by done. by exists e0. }
  split; simpl; try done.
  - intros q Hq. destruct (Hl q Hq) as (e0 & He0 & Hi0).
    destruct (Hsame q e0 He0) as (e' & He' & Hk & _).
    exists e'. by rewrite Hk.
  - intros k q Hk. destruct (Hi k q Hk) as (Hin & e0 & He0 & Hk0).
    destruct (Hsame q e0 He0) as (e' & He' & Hk' & _).
    split; [done|]. exists e'. split; [done|congruence].
  - rewrite Hc. f_equal. unfold resident. simpl. symmetry.
    apply sum_costs_ext. intros q Hq.
    destruct (Hl q Hq) as (e0 & He0 & _).
    destruct (Hsame q e0 He0) as (e' & He' & _ & Hcost).
    rewrite He', He0. simpl. by rewrite Hcost.
Qed.

Lemma wf_replaced c p e v :
  wf c → p ∈ evictList c → heap c !! p = Some e → wf (replaced p e v c).
Proof.
  intros Hwf Hp He. unfold replaced.
  by apply (wf_set_value (promoted p c)); [apply wf_promoted|].
Qed.

Lemma wf_pushed c k v cst :
  wf c → items c !! k = None → wf (pushed k v cst c).
Proof.
  intros Hwf Hk. pose proof Hwf as [Hm Hnd Hl Hi Hc].
  assert (length (heap c) ∉ evictList c) as Hfresh.
  { intros Hin%(wf_ptr_lt _ _ Hwf). lia. }
  assert (∀ p e, heap c !! p = Some e →
    (heap c ++ [Entry k v cst]) !! p = Some e) as Hold.
  { intros p e He. by apply lookup_app_l_Some. }
  assert ((heap c ++ [Entry k v cst]) !! length (heap c)
    = Some (Entry k v cst)) as Hnew.
  { by rewrite list_lookup_middle. }
  assert (resident (pushed k v cst c) = Entry k v cst :: resident c) as Hres.
  { unfold resident, pushed. cbn [heap evictList].
    rewrite (ents_cons _ _ _ _ Hnew). f_equal. apply ents_ext.
    intros p Hp. destruct (Hl p Hp) as (e & He & _).
    rewrite He. by apply Hold. }
  split; [simpl..|].
  - done.
  - by apply NoDup_cons.
  - intros p [->|Hp]%elem_of_cons.
    + eexists. split; [done|]. simpl. by rewrite lookup_insert_eq.
    + destruct (Hl p Hp) as (e & He & Hie). exists e. split; [by apply Hold|].
      rewrite lookup_insert_ne; [done|]. intros Heq. congruence.
  - intros k' p Hk'. apply lookup_insert_Some in Hk' as [[<- <-]|[Hne Hk']].
    + split; [by left|]. by eexists.
    + destruct (Hi k' p Hk') as (Hin & e & He & Hke).
      split; [by right|]. exists e. split; [by apply Hold|done].
  - rewrite Hres. cbn [pushed evictListCost sum_costs foldr cost].
    rewrite Hc, wrap64_add_l. f_equal. unfold sum_costs. lia.
Qed.

(** ** The index and the recency list hold the same elements *)

Lemma wf_items_perm c : wf c → (map_to_list (items c)).*2 ≡ₚ evictList c.
Proof.
  intros Hwf. apply NoDup_Permutation.
  - apply NoDup_fmap_2_strong; [|apply NoDup_map_to_list].
    intros [k1 p1] [k2 p2] H1%elem_of_map_to_list H2%elem_of_map_to_list Hp.
    simpl in Hp. subst p2.
    destruct (wf_items _ Hwf _ _ H1) as (_ & e1 & He1 & <-).
    destruct (wf_items _ Hwf _ _ H2) as (_ & e2 & He2 & <-).
    congruence.
  - apply Hwf.
  - intros p. rewrite list_elem_of_fmap. split.
    + intros ([k q] & -> & Hk%elem_of_map_to_list).
      by destruct (wf_items _ Hwf _ _ Hk).
    + intros Hp. destruct (wf_list _ Hwf p Hp) as (e & He & Hi).
      exists (key e, p). split; [done|]. by apply elem_of_map_to_list.
Qed.

Lemma wf_size c : wf c → size (items c) = length (evictList c).
Proof.
  intros Hwf. rewrite <- length_map_to_list.
  rewrite <- (length_fmap snd). by rewrite (wf_items_perm c Hwf).
Qed.

Lemma ents_reverse h l : ents h (reverse l) = reverse (ents h l).
Proof.
  induction l as [|p l IH]; [done|].
  rewrite reverse_cons, ents_app, IH.
  change (ents h (p :: l))
    with (match h !! p with Some e => e :: ents h l | None => ents h l end).
  unfold ents at 2. simpl.
  destruct (h !! p); [by rewrite reverse_cons|by rewrite app_nil_r].
Qed.

Lemma wf_resident_length c : wf c → length (resident c) = length (evictList c).
Proof.
  intros Hwf. apply ents_length. intros p Hp.
  destruct (wf_list _ Hwf p Hp) as (e & He & _). by exists e.
Qed.

(** ** What each operation does to a well-formed store *)

Lemma Add_existing c k v cst p :
  wf c → items c !! k = Some p →
  ∃ e, heap c !! p = Some e ∧ key e = k ∧
       Add k v cst c = Ret 0%nat (replaced p e v c).
Proof.
  intros Hwf Hk. destruct (wf_items _ Hwf k p Hk) as (Hp & e & He & Hke).
  exists e. split; [done|]. split; [done|].
  unfold Add. rewrite Hk. cbn [set_evictList heap]. rewrite He.
  unfold replaced, promoted.
  by rewrite MoveToFront_eq by (done || apply Hwf).
Qed.

Lemma Add_new_unfold c k v cst :
  items c !! k = None → ¬ cst > maxCost c →
  Add k v cst c = evict (pushed k v cst c).
Proof.
  intros Hk Hc. unfold Add. rewrite Hk. by rewrite decide_False.
Qed.

Lemma Add_new_panic c k v cst :
  items c !! k = None → cst > maxCost c → Add k v cst c = Panic c.
Proof.
  intros Hk Hc. unfold Add. rewrite Hk. by rewrite decide_True.
Qed.

Lemma evict_spec c :
  wf c →
  ∃ gone c',
    evict c = Ret (length gone) c' ∧
    evicted_back c gone c' ∧ wf c' ∧
    evictListCost c' ≤ maxCost c' ∧
    (∀ g1 g2, gone = g2 ++ g1 → g2 ≠ [] →
       maxCost c < wrap64 (evictListCost c - sum_costs (ents (heap c) g1))).
Proof.
  intros Hwf. unfold evict.
  destruct (evictLoop_spec (S (length (evictList c))) 0 c Hwf)
    as (gone & c' & Hrun & Hrest); [lia|].
  by exists gone, c'.
Qed.

Lemma Add_new c k v cst :
  wf c → items c !! k = None → ¬ cst > maxCost c →
  ∃ gone c',
    Add k v cst c = Ret (length gone) c' ∧
    evicted_back (pushed k v cst c) gone c' ∧ wf c' ∧
    evictListCost c' ≤ maxCost c' ∧
    (∀ g1 g2, gone = g2 ++ g1 → g2 ≠ [] →
       maxCost c < wrap64 (evictListCost (pushed k v cst c)
         - sum_costs (ents (heap (pushed k v cst c)) g1))).
Proof.
  intros Hwf Hk Hc. rewrite Add_new_unfold by done.
  apply (evict_spec (pushed k v cst c)). by apply wf_pushed.
Qed.

Lemma Get_spec c k :
  wf c →
  Get k c = match items c !! k with
            | Some p => Ret (value <$> heap c !! p) (promoted p c)
            | None => Ret None c
            end.
Proof.
  intros Hwf. unfold Get. destruct (items c !! k) as [p|] eqn:Hk; [|done].
  destruct (wf_items _ Hwf k p Hk) as (Hp & e & He & Hke).
  cbn [set_evictList heap]. rewrite He. simpl.
  unfold promoted. by rewrite MoveToFront_eq by (done || apply Hwf).
Qed.

Lemma Peek_spec c k :
  wf c →
  Peek k c = Ret (items c !! k ≫= λ p, value <$> heap c !! p) c.
Proof.
  intros Hwf. unfold Peek. destruct (items c !! k) as [p|] eqn:Hk; [|done].
  destruct (wf_items _ Hwf k p Hk) as (Hp & e & He & Hke).
  simpl. by rewrite He.
Qed.

Lemma Remove_spec c k p :
  wf c → items c !! k = Some p →
  ∃ e c', heap c !! p = Some e ∧ key e = k ∧
          Remove k c = Ret true c' ∧ removed c p e c' ∧ wf c'.
Proof.
  intros Hwf Hk. destruct (wf_items _ Hwf k p Hk) as (Hp & e & He & Hke).
  destruct (removeElement_spec c p e He) as (c' & Hrun & Hrm).
  exists e, c'. unfold Remove. rewrite Hk, Hrun.
  eauto 10 using removed_wf.
Qed.

Lemma Keys_loop_spec c walk (filled rest : list (option K)) :
  (∀ p, p ∈ walk → is_Some (heap c !! p)) →
  (length walk ≤ length rest)%nat →
  Keys_loop walk (length filled) (filled ++ rest) c =
    Ret (filled ++ (Some ∘ key <$> ents (heap c) walk)
           ++ drop (length walk) rest) c.
Proof.
  revert filled rest. induction walk as [|p walk IH]; intros filled rest Hh Hlen.
  - simpl. by rewrite drop_0.
  - destruct (Hh p) as [e He]; [by left|].
    destruct rest as [|r rest]; simpl in Hlen; [lia|].
    cbn [Keys_loop]. rewrite He.
    rewrite decide_True by (rewrite length_app; simpl; lia).
    replace (<[length filled := Some (key e)]> (filled ++ r :: rest))
      with ((filled ++ [Some (key e)]) ++ rest).
    2:{ rewrite <- (assoc_L (++)). simpl.
        rewrite (insert_app_r_alt filled (r :: rest) (length filled)) by lia.
        by rewrite Nat.sub_diag. }
    replace (S (length filled)) with (length (filled ++ [Some (key e)]))
      by (rewrite length_app; simpl; lia).
    rewrite IH.
    + rewrite (ents_cons _ _ _ _ He). simpl.
      by rewrite <- (assoc_L (++)).
    + intros q Hq. apply Hh. by right.
    + lia.
Qed.

Lemma Keys_spec c :
  wf c → Keys c = Ret (Some <$> reverse (key <$> resident c)) c.
Proof.
  intros Hwf. unfold Keys.
  pose proof (Keys_loop_spec c (reverse (evictList c)) []
    (replicate (size (items c)) None)) as Hloop.
  cbn [length app] in Hloop. rewrite Hloop.
  - rewrite drop_ge by (rewrite length_replicate, length_reverse, wf_size; done).
    rewrite app_nil_r. simpl. unfold resident.
    by rewrite ents_reverse, <- fmap_reverse, list_fmap_compose.
  - intros p Hp. rewrite elem_of_reverse in Hp.
    destruct (wf_list _ Hwf p Hp) as (e & He & _). by exists e.
  - by rewrite length_replicate, length_reverse, wf_size.
Qed.

Lemma Resize_spec c m :
  wf c → 0 < m →
  ∃ gone c',
    Resize m c = Ret (length gone) c' ∧
    evicted_back (set_maxCost m c) gone c' ∧ wf c' ∧
    evictListCost c' ≤ maxCost c' ∧
    (∀ g1 g2, gone = g2 ++ g1 → g2 ≠ [] →
       m < wrap64 (evictListCost c - sum_costs (ents (heap c) g1))).
Proof.
  intros Hwf Hm. unfold Resize. rewrite decide_False by lia.
  apply (evict_spec (set_maxCost m c)). by apply wf_set_maxCost.
Qed.

Lemma Oldest_spec c keep p :
  wf c → evictList c = keep ++ [p] →
  ∃ e c', heap c !! p = Some e ∧
          GetOldest c = Ret (Some (key e, value e)) c ∧
          RemoveOldest c = Ret (Some (key e, value e)) c' ∧
          removed c p e c' ∧ wf c'.
Proof.
  intros Hwf Hl.
  assert (p ∈ evictList c) as Hp.
  { rewrite Hl. apply elem_of_app. right. by left. }
  destruct (wf_list _ Hwf p Hp) as (e & He & _).
  destruct (removeElement_spec c p e He) as (c' & Hrun & Hrm).
  exists e, c'. unfold GetOldest, RemoveOldest, List.Back.
  rewrite Hl, last_snoc, He, Hrun, (rm_heap _ _ _ _ Hrm), He.
  eauto 10 using removed_wf.
Qed.

Lemma Oldest_empty c :
  evictList c = [] → GetOldest c = Ret None c ∧ RemoveOldest c = Ret None c.
Proof. intros Hl. unfold GetOldest, RemoveOldest. by rewrite Hl. Qed.

Lemma Purge_loop_spec order c :
  (∀ k p, (k, p) ∈ order → is_Some (heap c !! p)) →
  ∃ c', Purge_loop order c = Ret tt c' ∧
    (∀ k, items c' !! k =
       if decide (k ∈ order.*1) then None else items c !! k) ∧
    calls c' = calls c ++
      (if onEvict c then call_of <$> ents (heap c) order.*2 else []) ∧
    heap c' = heap c ∧ maxCost c' = maxCost c ∧ onEvict c' = onEvict c.
Proof.
  revert c. induction order as [|[k p] order IH]; intros c Hh.
  - exists c. simpl. split; [done|]. split; [done|].
    split; [|done]. destruct (onEvict c); by rewrite app_nil_r.
  - destruct (Hh k p) as [e He]; [by left|].
    cbn [Purge_loop]. rewrite He.
    set (c1 := set_items (delete k (items (callOnEvict e c))) (callOnEvict e c)).
    assert (heap c1 = heap c ∧ maxCost c1 = maxCost c ∧ onEvict c1 = onEvict c
      ∧ items c1 = delete k (items c)
      ∧ calls c1 = calls c ++ (if onEvict c then [call_of e] else []))
      as (Hh1 & Hm1 & Hcb1 & Hi1 & Ht1).
    { unfold c1, callOnEvict.
      destruct (onEvict c) eqn:Hcb; simpl; rewrite ?Hcb, ?app_nil_r; done. }
    destruct (IH c1) as (c' & Hrun & Hi & Ht & Hh' & Hm' & Hcb').
    { intros k' p' Hin. rewrite Hh1. apply (Hh k' p'). by right. }
    exists c'. split; [done|].
    rewrite Hh1, Hcb1 in *. split; [|split; [|by rewrite Hm1 in Hm']].
    + intros k'. rewrite Hi, Hi1. cbn [fmap list_fmap fst].
      destruct (decide (k' = k)) as [->|Hne].
      * rewrite lookup_delete_eq, (decide_True (P := k ∈ k :: _)) by by left.
        by destruct (decide _).
      * rewrite lookup_delete_ne by done.
        destruct (decide (k' ∈ order.*1)) as [Hin|Hin].
        -- rewrite decide_True; [done|]. by right.
        -- rewrite decide_False; [done|].
           intros [?|?]%elem_of_cons; done.
    + rewrite Ht, Ht1. cbn [fmap list_fmap snd].
      rewrite (ents_cons _ _ _ _ He).
      destruct (onEvict c); simpl; [|by rewrite !app_nil_r].
      by rewrite <- (assoc_L (++)).
Qed.

Lemma Purge_spec order c :
  wf c → order ≡ₚ map_to_list (items c) →
  ∃ c', Purge order c = Ret tt c' ∧
    evictList c' = [] ∧ evictListCost c' = 0 ∧ items c' = ∅ ∧
    calls c' = calls c ++
      (if onEvict c then call_of <$> ents (heap c) order.*2 else []) ∧
    ents (heap c) order.*2 ≡ₚ resident c ∧
    heap c' = heap c ∧ maxCost c' = maxCost c ∧ onEvict c' = onEvict c ∧
    wf c'.
Proof.
  intros Hwf Horder.
  destruct (Purge_loop_spec order c) as (c1 & Hrun & Hi & Ht & Hh & Hm & Hcb).
  { intros k p Hin. rewrite Horder in Hin.
    apply elem_of_map_to_list in Hin.
    destruct (wf_items _ Hwf k p Hin) as (_ & e & He & _). by exists e. }
  assert (items c1 = ∅) as Hempty.
  { apply map_eq. intros k. rewrite Hi, lookup_empty.
    destruct (decide (k ∈ order.*1)) as [|Hk]; [done|].
    destruct (items c !! k) as [p|] eqn:Hkp; [|done].
    exfalso. apply Hk. apply list_elem_of_fmap. exists (k, p).
    split; [done|]. rewrite Horder. by apply elem_of_map_to_list. }
  unfold Purge. rewrite Hrun. eexists. split; [done|]. simpl.
  do 4 (split; [done|]).
  split; [apply ents_perm; rewrite Horder; by apply wf_items_perm|].
  do 3 (split; [done|]).
  split; simpl.
  - rewrite Hm. apply Hwf.
  - apply NoDup_nil_2.
  - intros p Hp. by apply elem_of_nil in Hp.
  - rewrite Hempty. intros k p Hk. by rewrite lookup_empty in Hk.
  - done.
Qed.

(** ** Every store a caller can get is well-formed *)

Lemma exec_wf o c c' : wf c → valid_op c o → exec o c = Some c' → wf c'.
Proof.
  intros Hwf Hval Hex. destruct o as [k v cst|k|k|k|k| | | | | |m|order];
    simpl in Hex, Hval.
  - destruct (items c !! k) as [p|] eqn:Hk.
    + destruct (Add_existing c k v cst p Hwf Hk) as (e & He & Hke & Hrun).
      rewrite Hrun in Hex. injection Hex as <-.
      apply wf_replaced; [done| |done]. by destruct (wf_items _ Hwf k p Hk).
    + destruct (decide (cst > maxCost c)) as [Hc|Hc].
      * by rewrite Add_new_panic in Hex.
      * destruct (Add_new c k v cst Hwf Hk Hc) as (gone & c1 & Hrun & _ & ? & _).
        rewrite Hrun in Hex. by simplify_eq/=.
  - rewrite Get_spec in Hex by done.
    destruct (items c !! k) as [p|] eqn:Hk; simplify_eq/=; [|done].
    apply wf_promoted; [done|]. by destruct (wf_items _ Hwf k p Hk).
  - by simplify_eq/=.
  - rewrite Peek_spec in Hex by done. by simplify_eq/=.
  - destruct (items c !! k) as [p|] eqn:Hk.
    + destruct (Remove_spec c k p Hwf Hk) as (e & c1 & _ & _ & Hrun & _ & ?).
      rewrite Hrun in Hex. by simplify_eq/=.
    + unfold Remove in Hex. rewrite Hk in Hex. by simplify_eq/=.
  - destruct (evictList c) as [|x l _] eqn:Hl using rev_ind.
    + destruct (Oldest_empty c Hl) as [_ Hrun].
      rewrite Hrun in Hex. by simplify_eq/=.
    + destruct (Oldest_spec c l x Hwf Hl) as (e & c1 & _ & _ & Hrun & _ & ?).
      rewrite Hrun in Hex. by simplify_eq/=.
  - destruct (evictList c) as [|x l _] eqn:Hl using rev_ind.
    + destruct (Oldest_empty c Hl) as [Hrun _].
      rewrite Hrun in Hex. by simplify_eq/=.
    + destruct (Oldest_spec c l x Hwf Hl) as (e & c1 & _ & Hrun & _).
      rewrite Hrun in Hex. by simplify_eq/=.
  - rewrite Keys_spec in Hex by done. by simplify_eq/=.
  - by simplify_eq/=.
  - by simplify_eq/=.
  - unfold Resize in Hex. destruct (decide (m ≤ 0)) as [|Hm]; [done|].
    destruct (Resize_spec c m Hwf) as (gone & c1 & Hrun & _ & ? & _); [lia|].
    unfold Resize in Hrun. rewrite decide_False in Hrun by done.
    rewrite Hrun in Hex. by simplify_eq/=.
  - destruct (Purge_spec order c Hwf Hval)
      as (c1 & Hrun & _ & _ & _ & _ & _ & _ & _ & _ & ?).
    rewrite Hrun in Hex. by simplify_eq/=.
Qed.

Lemma reachable_by_wf P c : reachable_by P c → wf c.
Proof.
  induction 1 as [m cb c _ Hnew|c o c' _ IH Hval _ Hex].
  - by eapply wf_NewLRU.
  - by eapply exec_wf.
Qed.

Lemma reachable_by_weaken (P Q : LRU K V → op K V → Prop) c :
  (∀ c o, P c o → Q c o) → reachable_by P c → reachable_by Q c.
Proof.
  intros HPQ. induction 1 as [m cb c Hm Hnew|c o c' _ IH Hval HP Hex].
  - by eapply reach_new.
  - eapply reach_step; eauto.
Qed.

(** ** The resident entries after an operation *)

Lemma resident_pushed c k v cst :
  wf c → resident (pushed k v cst c) = Entry k v cst :: resident c.
Proof.
  intros Hwf. unfold resident, pushed. cbn [heap evictList].
  rewrite (ents_cons _ _ _ (Entry k v cst)) by by rewrite list_lookup_middle.
  f_equal. apply ents_ext. intros p Hp.
  destruct (wf_list _ Hwf p Hp) as (e & He & _).
  rewrite He. by apply lookup_app_l_Some.
Qed.

Lemma resident_promoted c p e :
  wf c → p ∈ evictList c → heap c !! p = Some e →
  resident (promoted p c) = e :: ents (heap c) (List.Remove p (evictList c)).
Proof. intros Hwf Hp He. unfold resident, promoted. simpl. by rewrite He. Qed.

(** The entries of the other elements are those with another key, in the
    order they had. *)
Lemma ents_Remove c p e :
  wf c → p ∈ evictList c → heap c !! p = Some e →
  ents (heap c) (List.Remove p (evictList c))
  = filter (λ e', key e' ≠ key e) (resident c).
Proof.
  intros Hwf Hp He. unfold resident, List.Remove.
  assert (∀ q, q ∈ evictList c → q ∈ evictList c) as Hsub by done.
  revert Hsub. generalize (evictList c) at 1 3 4.
  induction l as [|q l IH]; intros Hsub; [done|].
  destruct (wf_list _ Hwf q) as (e' & He' & _); [apply Hsub; by left|].
  assert (ents (heap c) (filter (λ x, x ≠ p) l)
    = filter (λ e', key e' ≠ key e) (ents (heap c) l)) as IH'.
  { apply IH. intros x Hx. apply Hsub. by right. }
  rewrite (ents_cons _ _ _ _ He').
  destruct (decide (q = p)) as [->|Hne].
  - rewrite filter_cons_False by (intros Hq; by apply Hq).
    simplify_eq. rewrite filter_cons_False by (intros Hq; by apply Hq). done.
  - rewrite filter_cons_True by done. rewrite (ents_cons _ _ _ _ He').
    rewrite filter_cons_True; [by rewrite IH'|].
    intros Hk. apply Hne.
    eapply (wf_key_inj c q p); eauto. apply Hsub. by left.
Qed.

Lemma resident_replaced c p e v :
  wf c → p ∈ evictList c → heap c !! p = Some e →
  resident (replaced p e v c)
  = Entry (key e) v (cost e) :: filter (λ e', key e' ≠ key e) (resident c).
Proof.
  intros Hwf Hp He. pose proof (lookup_lt_Some _ _ _ He) as Hlt.
  rewrite <- (ents_Remove c p e) by done.
  unfold resident, replaced, promoted. cbn [set_heap set_evictList heap evictList].
  rewrite (ents_cons _ _ _ (Entry (key e) v (cost e)))
    by by rewrite list_lookup_insert_eq.
  f_equal. apply ents_ext. intros q Hq. unfold List.Remove in Hq.
  apply list_elem_of_filter in Hq as [Hne _].
  by rewrite list_lookup_insert_ne.
Qed.

Lemma removed_resident c p e c' :
  wf c → p ∈ evictList c → heap c !! p = Some e → removed c p e c' →
  resident c' = filter (λ e', key e' ≠ key e) (resident c) ∧
  resident c ≡ₚ e :: resident c'.
Proof.
  intros Hwf Hp He Hrm.
  assert (resident c' = ents (heap c) (List.Remove p (evictList c))) as ->.
  { unfold resident. by rewrite (rm_heap _ _ _ _ Hrm), (rm_list _ _ _ _ Hrm). }
  split; [by apply ents_Remove|].
  rewrite <- (ents_cons _ _ _ _ He). apply ents_perm. symmetry.
  apply Remove_perm; [apply Hwf|done].
Qed.

Lemma evicted_back_resident c gone c' :
  evicted_back c gone c' →
  resident c = resident c' ++ ents (heap c) gone.
Proof.
  intros Heb. unfold resident.
  by rewrite (eb_heap _ _ _ Heb), (eb_list _ _ _ Heb), ents_app.
Qed.

Lemma evicted_back_nil_inv c c' :
  evicted_back c [] c' →
  evictList c' = evictList c ∧ items c' = items c ∧ calls c' = calls c ∧
  heap c' = heap c ∧ resident c' = resident c.
Proof.
  intros Heb. pose proof (evicted_back_resident _ _ _ Heb) as Hres.
  destruct Heb as [Hl Hi Hc Ht Hh Hm Hcb].
  rewrite app_nil_r in Hl. simpl in *. rewrite app_nil_r in Hres.
  split; [done|]. split; [by apply map_eq|]. split; [|done].
  rewrite Ht. destruct (onEvict c); by rewrite app_nil_r.
Qed.

(** ** [Add] of a new key, by what the loop finds *)

Lemma Add_new_fits c k v cst :
  items c !! k = None → ¬ cst > maxCost c →
  wrap64 (evictListCost c + cst) ≤ maxCost c →
  Add k v cst c = Ret 0%nat (pushed k v cst c).
Proof.
  intros Hk Hc Hfit. rewrite Add_new_unfold by done.
  unfold evict. cbn [evictLoop pushed evictListCost maxCost].
  by rewrite decide_False by lia.
Qed.

Lemma Add_new_evicts_one c k v cst keep p e :
  items c !! k = None → ¬ cst > maxCost c →
  evictList c = keep ++ [p] → heap c !! p = Some e →
  wrap64 (evictListCost c + cst) > maxCost c →
  wrap64 (evictListCost c + cst - cost e) ≤ maxCost c →
  ∃ c', Add k v cst c = Ret 1%nat c' ∧ removed (pushed k v cst c) p e c'.
Proof.
  intros Hk Hc Hl He Hover Hfit. rewrite Add_new_unfold by done.
  assert (heap (pushed k v cst c) !! p = Some e) as He'.
  { simpl. by apply lookup_app_l_Some. }
  destruct (removeElement_spec _ p e He') as (c' & Hrun & Hrm).
  exists c'. split; [|done].
  unfold evict. cbn [evictLoop]. rewrite decide_True by done.
  unfold removeOldest, List.Back. cbn [pushed evictList].
  rewrite Hl, app_comm_cons, last_snoc.
  change (mkLRU _ _ _ _ _ _ _) with (pushed k v cst c). rewrite Hrun.
  destruct (length _); cbn [evictLoop];
    rewrite (rm_cost _ _ _ _ Hrm), (rm_maxCost _ _ _ _ Hrm);
    cbn [pushed evictListCost maxCost];
    rewrite wrap64_sub_l, decide_False by lia; done.
Qed.

(** ** Residency, as [Contains] reports it *)

Lemma Contains_true c k :
  Contains k c = Ret true c → ∃ p, items c !! k = Some p.
Proof.
  unfold Contains. intros [= Hk]. apply bool_decide_eq_true in Hk as [p Hp].
  by exists p.
Qed.

Lemma Contains_false c k : Contains k c = Ret false c → items c !! k = None.
Proof.
  unfold Contains. intros [= Hk]. apply bool_decide_eq_false in Hk.
  by apply eq_None_not_Some.
Qed.

Lemma Contains_resident c k :
  wf c → Contains k c = Ret true c ↔ k ∈ key <$> resident c.
Proof.
  intros Hwf. split.
  - intros [p Hp]%Contains_true.
    destruct (wf_items _ Hwf k p Hp) as (Hin & e & He & <-).
    apply list_elem_of_fmap_2. apply list_elem_of_omap. by exists p.
  - intros (e & -> & He)%list_elem_of_fmap.
    apply list_elem_of_omap in He as (p & Hp & He).
    destruct (wf_list _ Hwf p Hp) as (e' & He' & Hi). simplify_eq.
    unfold Contains. f_equal. apply bool_decide_eq_true. by exists p.
Qed.

Lemma Peek_replaced c k p e v :
  wf c → items c !! k = Some p → heap c !! p = Some e →
  Peek k (replaced p e v c) = Ret (Some v) (replaced p e v c).
Proof.
  intros Hwf Hk He. unfold Peek.
  change (items (replaced p e v c)) with (items c). rewrite Hk.
  change (heap (replaced p e v c))
    with (<[p := Entry (key e) v (cost e)]> (heap c)).
  by rewrite list_lookup_insert_eq by by eapply lookup_lt_Some.
Qed.

(** ** Re-adding a resident key *)

(** C2. For every reachable store and every key already resident,
    [Add key value cost] returns 0 and evicts nothing (no entry leaves, the
    callback is not called); the entry of the key becomes the front of the
    recency order, with the new value and the cost it had, and all other
    entries keep their order; [Cost], [Len] and [maxCost] are unchanged,
    whatever the cost argument. *)
Theorem Add_resident_key c k v cst :
  reachable c → Contains k c = Ret true c →
  ∃ e c',
    Add k v cst c = Ret 0%nat c' ∧
    e ∈ resident c ∧ key e = k ∧
    resident c' =
      Entry k v (cost e) :: filter (λ e', key e' ≠ k) (resident c) ∧
    Peek k c' = Ret (Some v) c' ∧
    Cost c' = Ret (evictListCost c) c' ∧
    Len c' = Ret (length (evictList c)) c' ∧
    maxCost c' = maxCost c ∧
    items c' = items c ∧
    calls c' = calls c.
Proof.
  intros Hwf%reachable_by_wf [p Hk]%Contains_true.
  destruct (Add_existing c k v cst p Hwf Hk) as (e & He & Hke & Hrun).
  destruct (wf_items _ Hwf k p Hk) as (Hp & _).
  exists e, (replaced p e v c). split; [done|].
  split; [apply list_elem_of_omap; by exists p|]. split; [done|].
  split; [rewrite <- Hke; by apply resident_replaced|].
  split; [by apply Peek_replaced|]. split; [done|].
  split; [|done]. unfold Len, List.Len. f_equal.
  change (evictList (replaced p e v c)) with (p :: List.Remove p (evictList c)).
  by rewrite Remove_perm by (done || apply Hwf).
Qed.

(** C9. [Add] on a key already resident never fails, whatever the cost
    argument, also one above [maxCost]: the branch for an existing key is
    taken before the cost is looked at.  The call returns 0 and the value is
    the new one. *)
Theorem resident_Add_never_fails c k v cst :
  reachable c → Contains k c = Ret true c →
  ∃ c', Add k v cst c = Ret 0%nat c' ∧ Peek k c' = Ret (Some v) c'.
Proof.
  intros Hwf%reachable_by_wf [p Hk]%Contains_true.
  destruct (Add_existing c k v cst p Hwf Hk) as (e & He & Hke & Hrun).
  exists (replaced p e v c). split; [done|]. by apply Peek_replaced.
Qed.

(** ** Oversized entries *)

(** C3. For every store and every key not resident, [Add] with a cost above
    [maxCost] panics, and the state it panics in is the state it was called
    in: nothing was inserted, [Cost], [Len] and every entry are as before. *)
Theorem Add_oversized_panics (c : LRU K V) k v cst :
  Contains k c = Ret false c → cst > maxCost c →
  Add k v cst c = Panic c.
Proof. intros Hk%Contains_false Hc. by apply Add_new_panic. Qed.

(** ** The oldest entry *)

(** C10. On a non-empty reachable store [GetOldest] returns the key and the
    value of the entry at the back of the recency list and leaves the store
    as it is; [RemoveOldest], called next, returns the same key and value
    and removes that entry (one callback call when the callback is set).  On
    an empty store both return not-found and change nothing. *)
Theorem GetOldest_RemoveOldest_agree c :
  reachable c →
  (evictList c ≠ [] →
   ∃ p e c',
     last (evictList c) = Some p ∧ heap c !! p = Some e ∧
     last (resident c) = Some e ∧
     GetOldest c = Ret (Some (key e, value e)) c ∧
     RemoveOldest c = Ret (Some (key e, value e)) c' ∧
     removed c p e c' ∧
     Contains (key e) c = Ret true c ∧
     Contains (key e) c' = Ret false c' ∧
     resident c = resident c' ++ [e]) ∧
  (evictList c = [] →
   GetOldest c = Ret None c ∧ RemoveOldest c = Ret None c).
Proof.
  intros Hwf%reachable_by_wf. split; [|apply Oldest_empty].
  intros Hne. destruct (evictList c) as [|p keep _] eqn:Hl using rev_ind; [done|].
  clear Hne.
  destruct (Oldest_spec c keep p Hwf Hl) as (e & c' & He & Hget & Hrm & Hrmd & Hwf').
  assert (p ∈ evictList c) as Hp.
  { rewrite Hl. apply elem_of_app. right. by left. }
  assert (evictList c' = keep) as Hl'.
  { rewrite (rm_list _ _ _ _ Hrmd), Hl. apply Remove_back.
    rewrite <- Hl. apply Hwf. }
  assert (resident c = resident c' ++ [e]) as Hres.
  { unfold resident. rewrite (rm_heap _ _ _ _ Hrmd), Hl', Hl, ents_app.
    by rewrite (ents_cons _ _ _ _ He). }
  exists p, e, c'. rewrite last_snoc.
  split; [done|]. split; [done|].
  split; [by rewrite Hres, last_snoc|].
  split; [done|]. split; [done|]. split; [done|].
  destruct (wf_list _ Hwf p Hp) as (e' & He' & Hi). simplify_eq.
  split; [|split; [|done]].
  - unfold Contains. f_equal. apply bool_decide_eq_true. by exists p.
  - unfold Contains. f_equal. apply bool_decide_eq_false.
    rewrite (rm_items _ _ _ _ Hrmd), lookup_delete_eq. by intros [? ?].
Qed.

(** ** Resize *)

(** C6, amended. [Resize m] panics, changing nothing, when [m <= 0].  Otherwise, on
    a reachable store, it sets the ceiling to [m] and returns the number of
    entries it evicted: the elements [gone] are taken off the back of the
    recency list, the back-most first, with one callback call each in that
    order; the loop stops at the first point where the accumulator is
    within [m] (it exceeds [m] before each eviction).  Nothing is evicted
    when the accumulator is within [m] at the call; raising the ceiling
    evicts nothing when the store is within its ceiling at the call (a store
    whose accumulator has wrapped around need not be); something is evicted
    when the accumulator is above [m]. *)
Theorem Resize_behaviour c m :
  reachable c →
  (m ≤ 0 → Resize m c = Panic c) ∧
  (0 < m →
   ∃ gone c',
     Resize m c = Ret (length gone) c' ∧
     evicted_back (set_maxCost m c) gone c' ∧
     maxCost c' = m ∧ evictListCost c' ≤ m ∧
     (∀ g1 g2, gone = g2 ++ g1 → g2 ≠ [] →
        m < wrap64 (evictListCost c - sum_costs (ents (heap c) g1))) ∧
     (evictListCost c ≤ m → gone = []) ∧
     (evictListCost c ≤ maxCost c → maxCost c ≤ m → gone = []) ∧
     (m < evictListCost c → gone ≠ [])).
Proof.
  intros Hwf%reachable_by_wf. split.
  - intros Hm. unfold Resize. by rewrite decide_True.
  - intros Hm.
    destruct (Resize_spec c m Hwf Hm) as (gone & c' & Hrun & Heb & Hwf' & Hle & Hmin).
    pose proof (eb_maxCost _ _ _ Heb) as Hmax. simpl in Hmax.
    rewrite Hmax in Hle.
    assert (evictListCost c ≤ m → gone = []) as Hfits.
    { intros Hfit. destruct gone as [|p gone]; [done|].
      specialize (Hmin [] (p :: gone)). rewrite app_nil_r in Hmin.
      specialize (Hmin eq_refl). simpl in Hmin.
      rewrite Z.sub_0_r, wrap64_id in Hmin by by apply wf_in_int64.
      assert (p :: gone ≠ []) as Hne by done. specialize (Hmin Hne). lia. }
    exists gone, c'. do 6 (split; [done|]). split.
    + intros Hinv Hraise. apply Hfits. lia.
    + intros Hover ->. pose proof (eb_cost _ _ _ Heb) as Hcost.
      simpl in Hcost.
      rewrite Z.sub_0_r, wrap64_id in Hcost by by apply wf_in_int64. lia.
Qed.

(** ** Purge *)

(** C7. On a reachable store, whatever the order in which the map is
    iterated, [Purge] returns; afterwards [Len] and [Cost] are 0 and no key
    is resident; when the callback is set it has been called once for each
    entry that was resident, with that entry's key, value and cost (the
    calls are a permutation of the resident entries), and not at all when it
    is not set. *)
Theorem Purge_complete c order :
  reachable c → order ≡ₚ map_to_list (items c) →
  ∃ c' es,
    Purge order c = Ret tt c' ∧
    Len c' = Ret 0%nat c' ∧ Cost c' = Ret 0 c' ∧
    (∀ k, Contains k c' = Ret false c') ∧
    es ≡ₚ resident c ∧
    calls c' = calls c ++ (if onEvict c then call_of <$> es else []).
Proof.
  intros Hwf%reachable_by_wf Horder.
  destruct (Purge_spec order c Hwf Horder)
    as (c' & Hrun & Hl & Hc & Hi & Ht & Hperm & _).
  exists c', (ents (heap c) order.*2). split; [done|].
  unfold Len, Cost, Contains, List.Len. rewrite Hl, Hc, Hi.
  do 2 (split; [done|]). split; [|done].
  intros k. f_equal; apply bool_decide_eq_false; rewrite lookup_empty;
    by intros [? ?].
Qed.

(** ** Keys *)

Lemma wf_keys_NoDup c : wf c → NoDup (key <$> resident c).
Proof.
  intros Hwf. unfold resident.
  assert (∀ q, q ∈ evictList c → q ∈ evictList c) as Hsub by done.
  pose proof (wf_NoDup _ Hwf) as Hnd.
  revert Hsub Hnd. generalize (evictList c) at 1 3 4.
  induction l as [|p l IH]; intros Hsub Hnd; [apply NoDup_nil_2|].
  apply NoDup_cons in Hnd as [Hp Hnd].
  destruct (wf_list _ Hwf p) as (e & He & _); [apply Hsub; by left|].
  rewrite (ents_cons _ _ _ _ He). cbn [fmap list_fmap]. apply NoDup_cons.
  split; [|apply IH; [|done]; intros q Hq; apply Hsub; by right].
  intros (e' & Hk & (q & Hq & He')%list_elem_of_omap)%list_elem_of_fmap.
  apply Hp. assert (p = q) as ->; [|done].
  eapply (wf_key_inj c p q); eauto; apply Hsub; [by left|by right].
Qed.

Lemma AddAll_new_keys (l : list (K * V * Z)) c c' :
  wf c → NoDup l.*1.*1 → (∀ k, k ∈ l.*1.*1 → items c !! k = None) →
  AddAll l c = Ret 0%nat c' →
  wf c' ∧ key <$> resident c' = reverse l.*1.*1 ++ (key <$> resident c).
Proof.
  revert c. induction l as [|[[k v] cst] l IH]; intros c Hwf Hnd Hnew Hrun.
  - simpl in Hrun. by simplify_eq.
  - cbn [fmap list_fmap fst] in *. apply NoDup_cons in Hnd as [Hk Hnd].
    cbn [AddAll] in Hrun.
    assert (items c !! k = None) as Hck by (apply Hnew; by left).
    destruct (decide (cst > maxCost c)) as [Hc|Hc].
    { by rewrite Add_new_panic in Hrun. }
    destruct (Add_new c k v cst Hwf Hck Hc) as (gone & c1 & Hadd & Heb & Hwf1 & _).
    rewrite Hadd in Hrun.
    destruct (AddAll l c1) as [n c2| |] eqn:Hrest; [|done..].
    injection Hrun as Hn ->.
    assert (gone = []) as -> by (apply length_zero_iff_nil; lia).
    assert (n = 0%nat) as -> by lia.
    destruct (evicted_back_nil_inv _ _ Heb) as (_ & Hi1 & _ & _ & Hres1).
    destruct (IH c1 Hwf1 Hnd) as [Hwf2 Hkeys]; [|done|].
    + intros k' Hk'. rewrite Hi1. cbn [pushed items].
      rewrite lookup_insert_ne by (intros <-; done).
      apply Hnew. by right.
    + split; [done|].
      rewrite Hkeys, Hres1, resident_pushed by done.
      rewrite reverse_cons. cbn [fmap list_fmap key].
      by rewrite <- (assoc_L (++)).
Qed.

(** C4. On a reachable store [Keys] returns the keys of the resident
    entries, each once, from the back of the recency list to its front.
    When keys that are pairwise distinct are added to a new store, no call
    evicting anything, [Keys] then returns them in the order they were
    added. *)
Theorem Keys_oldest_to_newest :
  (∀ c, reachable c →
     Keys c = Ret (Some <$> reverse (key <$> resident c)) c ∧
     NoDup (key <$> resident c) ∧
     (∀ k, k ∈ reverse (key <$> resident c) ↔ Contains k c = Ret true c)) ∧
  (∀ m cb c0 (l : list (K * V * Z)) c,
     NewLRU m cb = Some c0 → NoDup l.*1.*1 → AddAll l c0 = Ret 0%nat c →
     Keys c = Ret (Some <$> l.*1.*1) c).
Proof.
  split.
  - intros c Hwf%reachable_by_wf.
    split; [by apply Keys_spec|]. split; [by apply wf_keys_NoDup|].
    intros k. rewrite elem_of_reverse. symmetry. by apply Contains_resident.
  - intros m cb c0 l c Hnew Hnd Hrun.
    pose proof (wf_NewLRU _ _ _ Hnew) as Hwf0.
    assert (items c0 = ∅ ∧ resident c0 = []) as [Hi0 Hr0].
    { unfold NewLRU in Hnew. destruct (decide (m ≤ 0)); [done|].
      by injection Hnew as <-. }
    destruct (AddAll_new_keys l c0 c Hwf0 Hnd) as [Hwf Hkeys]; [|done|].
    { intros k _. by rewrite Hi0. }
    rewrite Keys_spec by done.
    by rewrite Hkeys, Hr0, app_nil_r, reverse_involutive.
Qed.

(** ** Peek and Contains *)

Lemma wrap64_small z : 0 ≤ z ≤ max_int64 → wrap64 z = z.
Proof. intros Hz. apply wrap64_id. unfold in_int64, min_int64. lia. Qed.

(** C8. On a reachable store [Peek] finds what [Get] finds, and [Contains]
    reports whether it is found; [Peek] and [Contains] return the store they
    were given: recency order, [Cost] and [Len] are as before.  In
    particular, after [Add a], [Add b], [Peek a] on a new store in which
    [a] and [b] fit together but not with a third entry, adding that third
    entry evicts [a] and keeps [b]. *)
Theorem Peek_Contains_do_not_reorder :
  (∀ c k, reachable c →
     ∃ r c',
       Peek k c = Ret r c ∧ Get k c = Ret r c' ∧
       Contains k c = Ret (bool_decide (is_Some r)) c) ∧
  (∀ m cb c0 a b k (va vb vk : V) ca cb' ck,
     NewLRU m cb = Some c0 →
     a ≠ b → k ≠ a → k ≠ b →
     0 ≤ ca → 0 ≤ cb' → 0 ≤ ck →
     ca + cb' ≤ m → cb' + ck ≤ m → m < ca + cb' + ck →
     ca + cb' + ck ≤ max_int64 →
     ∃ c1 c2 c3,
       Add a va ca c0 = Ret 0%nat c1 ∧
       Add b vb cb' c1 = Ret 0%nat c2 ∧
       Peek a c2 = Ret (Some va) c2 ∧
       Add k vk ck c2 = Ret 1%nat c3 ∧
       calls c3 = (if cb then [(a, va, ca)] else []) ∧
       Contains a c3 = Ret false c3 ∧
       Contains b c3 = Ret true c3 ∧
       Keys c3 = Ret [Some b; Some k] c3).
Proof.
  split.
  - intros c k Hwf%reachable_by_wf.
    rewrite Peek_spec, Get_spec by done. unfold Contains.
    destruct (items c !! k) as [p|] eqn:Hk.
    + destruct (wf_items _ Hwf k p Hk) as (_ & e & He & _).
      exists (Some (value e)), (promoted p c). simpl. by rewrite He.
    + by exists None, c.
  - intros m cb c0 a b k va vb vk ca cb' ck Hnew Hab Hka Hkb Hca Hcb Hck
      Hfit2 Hfit2' Hover Hmax.
    pose proof (wf_NewLRU _ _ _ Hnew) as Hwf0.
    unfold NewLRU in Hnew. destruct (decide (m ≤ 0)); [done|].
    injection Hnew as <-.
    set (c0 := mkLRU m [] 0 ∅ cb [] []) in *.
    set (c1 := pushed a va ca c0). set (c2 := pushed b vb cb' c1).
    assert (items c1 !! b = None) as Hb1.
    { unfold c1, pushed, c0. simpl. by rewrite lookup_insert_ne. }
    assert (items c2 !! k = None) as Hk2.
    { unfold c2, pushed, c1, c0. simpl.
      by rewrite !lookup_insert_ne by done. }
    pose proof (wf_pushed c0 a va ca Hwf0 eq_refl) as Hwf1. fold c1 in Hwf1.
    pose proof (wf_pushed c1 b vb cb' Hwf1 Hb1) as Hwf2. fold c2 in Hwf2.
    pose proof (wf_pushed c2 k vk ck Hwf2 Hk2) as Hwf2'.
    assert (evictListCost c1 = ca) as Hcost1.
    { unfold c1, pushed, c0. simpl. apply wrap64_small. lia. }
    assert (evictListCost c2 = ca + cb') as Hcost2.
    { unfold c2, pushed. cbn [evictListCost]. rewrite Hcost1.
      apply wrap64_small. lia. }
    assert (Add a va ca c0 = Ret 0%nat c1) as Hadd1.
    { apply Add_new_fits; [done|simpl; lia|].
      fold (evictListCost c1). simpl. rewrite wrap64_small; lia. }
    assert (Add b vb cb' c1 = Ret 0%nat c2) as Hadd2.
    { apply Add_new_fits; [done|simpl; lia|].
      change (wrap64 (evictListCost c1 + cb')) with (evictListCost c2).
      rewrite Hcost2. simpl. lia. }
    destruct (Add_new_evicts_one c2 k vk ck [1%nat] 0%nat (Entry a va ca))
      as (c3 & Hadd3 & Hrm); [done|simpl; lia|done|done|..].
    { rewrite Hcost2, wrap64_small; simpl; lia. }
    { rewrite Hcost2, wrap64_small; simpl; lia. }
    assert (wf c3) as Hwf3.
    { apply (removed_wf (pushed k vk ck c2) 0%nat (Entry a va ca) c3 Hwf2');
        [simpl; set_solver|done|done]. }
    exists c1, c2, c3. split; [done|]. split; [done|].
    split; [unfold Peek; simpl; by rewrite lookup_insert_ne, lookup_insert_eq|].
    split; [done|].
    split; [by rewrite (rm_calls _ _ _ _ Hrm)|].
    split; [|split].
    + unfold Contains. f_equal. apply bool_decide_eq_false.
      rewrite (rm_items _ _ _ _ Hrm). simpl. rewrite lookup_delete_eq.
      by intros [? ?].
    + unfold Contains. f_equal. apply bool_decide_eq_true.
      rewrite (rm_items _ _ _ _ Hrm). simpl.
      rewrite lookup_delete_ne, lookup_insert_ne, lookup_insert_eq by done.
      by eexists.
    + rewrite Keys_spec by done. unfold resident.
      by rewrite (rm_heap _ _ _ _ Hrm), (rm_list _ _ _ _ Hrm).
Qed.

(** ** Entries of one cost *)

(** One [Add] of a new key with cost 2 to a store of [n] entries of cost 2
    whose ceiling is room for [cap] of them: it fits while [n < cap], and
    evicts one entry when the store is full. *)
Lemma Add_uniform_step (cap n : nat) c k v :
  wf c → maxCost c = 2 * Z.of_nat cap → 2 * Z.of_nat cap + 2 ≤ max_int64 →
  length (evictList c) = n → (n ≤ cap)%nat → evictListCost c = 2 * Z.of_nat n →
  Forall (λ e, cost e = 2) (resident c) → items c !! k = None →
  ∃ c',
    Add k v 2 c = Ret (if decide (n < cap)%nat then 0 else 1)%nat c' ∧
    wf c' ∧ maxCost c' = 2 * Z.of_nat cap ∧
    length (evictList c') = (if decide (n < cap)%nat then S n else cap) ∧
    evictListCost c' = 2 * Z.of_nat (length (evictList c')) ∧
    Forall (λ e, cost e = 2) (resident c') ∧
    (∀ k', k' ≠ k → items c !! k' = None → items c' !! k' = None).
Proof.
  intros Hwf Hmax Hcap Hlen Hn Hcost Hall Hk.
  pose proof (wf_maxCost _ Hwf) as Hpos.
  pose proof (wf_pushed c k v 2 Hwf Hk) as Hwf1.
  pose proof (resident_pushed c k v 2 Hwf) as Hres1.
  destruct (decide (n < cap)%nat) as [Hlt|Hge].
  - exists (pushed k v 2 c).
    split; [apply Add_new_fits; [done|lia|]; rewrite Hcost, wrap64_small; lia|].
    split; [done|]. split; [done|]. split; [simpl; by rewrite Hlen|].
    split; [simpl; rewrite Hcost, Hlen, wrap64_small; lia|].
    split; [rewrite Hres1; by apply Forall_cons|].
    intros k' Hne Hk'. simpl. by rewrite lookup_insert_ne.
  - assert (n = cap) as -> by lia.
    destruct (evictList c) as [|p keep _] eqn:Hl using rev_ind;
      [simpl in Hlen; lia|].
    assert (p ∈ evictList c) as Hp.
    { rewrite Hl. apply elem_of_app. right. by left. }
    destruct (wf_list _ Hwf p Hp) as (e & He & _).
    assert (cost e = 2) as Hce.
    { apply (proj1 (Forall_forall _ _) Hall). apply list_elem_of_omap.
      by exists p. }
    destruct (Add_new_evicts_one c k v 2 keep p e)
      as (c' & Hadd & Hrm); [done|lia|done|done|..].
    { rewrite Hcost, wrap64_small; lia. }
    { rewrite Hcost, Hce, wrap64_small; lia. }
    assert (p ∈ evictList (pushed k v 2 c)) as Hp1 by (simpl; by right).
    assert (heap (pushed k v 2 c) !! p = Some e) as He1.
    { simpl. by apply lookup_app_l_Some. }
    pose proof (removed_wf _ _ _ _ Hwf1 Hp1 He1 Hrm) as Hwf'.
    destruct (removed_resident _ _ _ _ Hwf1 Hp1 He1 Hrm) as [_ Hperm].
    assert (length (evictList c') = cap) as Hlen'.
    { rewrite <- (wf_resident_length c' Hwf').
      apply Permutation_length in Hperm.
      rewrite Hres1 in Hperm. simpl in Hperm.
      rewrite (wf_resident_length c Hwf), Hl in Hperm. rewrite <- Hlen. lia. }
    exists c'. split; [done|]. split; [done|].
    split; [by rewrite (rm_maxCost _ _ _ _ Hrm)|]. split; [done|].
    split; [rewrite (rm_cost _ _ _ _ Hrm), Hlen'; simpl;
            rewrite wrap64_sub_l, Hcost, Hce, wrap64_small; lia|].
    split.
    + assert (Forall (λ e, cost e = 2) (e :: resident c')) as Hall'.
      { rewrite <- Hperm, Hres1. by apply Forall_cons. }
      by apply Forall_cons in Hall' as [_ ?].
    + intros k' Hne Hk'. rewrite (rm_items _ _ _ _ Hrm). simpl.
      destruct (decide (k' = key e)) as [->|Hne'].
      * by rewrite lookup_delete_eq.
      * by rewrite lookup_delete_ne, lookup_insert_ne.
Qed.

Lemma AddAll_uniform (cap : nat) (l : list (K * V * Z)) :
  ∀ (n : nat) c,
    wf c → maxCost c = 2 * Z.of_nat cap → 2 * Z.of_nat cap + 2 ≤ max_int64 →
    length (evictList c) = n → (n ≤ cap)%nat → evictListCost c = 2 * Z.of_nat n →
    Forall (λ e, cost e = 2) (resident c) →
    NoDup l.*1.*1 → Forall (λ x, x.2 = 2) l →
    (∀ k, k ∈ l.*1.*1 → items c !! k = None) →
    ∃ c',
      AddAll l c = Ret (n + length l - min cap (n + length l))%nat c' ∧
      length (evictList c') = min cap (n + length l).
Proof.
  induction l as [|[[k v] cst] l IH];
    intros n c Hwf Hmax Hcap Hlen Hn Hcost Hall Hnd Htwo Hnew.
  - exists c. simpl. split; [f_equal|]; lia.
  - cbn [fmap list_fmap fst] in *. apply NoDup_cons in Hnd as [Hk Hnd].
    apply Forall_cons in Htwo as [Hcst Htwo]. simpl in Hcst. subst cst.
    destruct (Add_uniform_step cap n c k v)
      as (c1 & Hadd & Hwf1 & Hmax1 & Hlen1 & Hcost1 & Hall1 & Hi1);
      [done..|apply Hnew; by left|].
    destruct (IH (length (evictList c1)) c1)
      as (c' & Hrun & Hlen'); [done|done|done|done| |done|done|done|done| |].
    { rewrite Hlen1. case_decide; lia. }
    { intros k' Hk'. apply Hi1; [intros ->; done|]. apply Hnew. by right. }
    exists c'. cbn [AddAll]. rewrite Hadd, Hrun, Hlen', Hlen1.
    simpl. split; [f_equal|]; case_decide; lia.
Qed.

(** C5. A new store with [maxCost] 128, then 256 calls of [Add] with keys
    that are pairwise distinct, each with cost 2: every call returns, the
    counts they return add up to 192, and [Len] is then 64. *)
Theorem Add_256_of_cost_2 cb (l : list (K * V * Z)) :
  length l = 256%nat → NoDup l.*1.*1 → Forall (λ x, x.2 = 2) l →
  ∃ c0 c,
    NewLRU 128 cb = Some c0 ∧
    AddAll l c0 = Ret 192%nat c ∧
    Len c = Ret 64%nat c.
Proof.
  intros Hlen Hnd Htwo.
  assert (NewLRU (K := K) (V := V) 128 cb = Some (mkLRU 128 [] 0 ∅ cb [] []))
    as Hnew by (unfold NewLRU; by rewrite decide_False by lia).
  destruct (AddAll_uniform 64 l 0 (mkLRU 128 [] 0 ∅ cb [] []))
    as (c & Hrun & Hlen'); try done.
  - by eapply wf_NewLRU.
  - lia.
  - eexists _, c. split; [done|]. rewrite Hlen in *.
    split; [done|]. unfold Len, List.Len. by rewrite Hlen'.
Qed.

(** ** The capacity invariant *)

Lemma sum_costs_nonneg (es : list (entry K V)) :
  Forall (λ e, 0 ≤ cost e) es → 0 ≤ sum_costs es.
Proof. induction 1; simpl; lia. Qed.

Lemma budget_cost c :
  wf c → within_budget c → evictListCost c = sum_costs (resident c).
Proof.
  intros Hwf (Hall & Hsum & Hmax). rewrite (wf_cost _ Hwf).
  apply wrap64_small. pose proof (sum_costs_nonneg _ Hall). lia.
Qed.

Lemma budget_promoted c p :
  wf c → p ∈ evictList c → within_budget c → within_budget (promoted p c).
Proof.
  intros Hwf Hp (Hall & Hsum & Hmax).
  assert (resident (promoted p c) ≡ₚ resident c) as Hperm.
  { apply ents_perm. simpl. apply Remove_perm; [apply Hwf|done]. }
  split; [by rewrite Hperm|]. split; [|done].
  by rewrite (sum_costs_perm _ _ Hperm).
Qed.

Lemma budget_replaced c p e v :
  wf c → p ∈ evictList c → heap c !! p = Some e →
  within_budget c → within_budget (replaced p e v c).
Proof.
  intros Hwf Hp He Hb.
  destruct (budget_promoted c p Hwf Hp Hb) as (Hall & Hsum & Hmax).
  rewrite (resident_promoted c p e) in Hall, Hsum by done.
  rewrite (ents_Remove c p e) in Hall, Hsum by done.
  apply Forall_cons in Hall as [Hce Hall].
  split; [|split; [|done]]; rewrite resident_replaced by done.
  - by apply Forall_cons.
  - done.
Qed.

Lemma budget_removed c p e c' :
  wf c → p ∈ evictList c → heap c !! p = Some e → removed c p e c' →
  within_budget c → within_budget c'.
Proof.
  intros Hwf Hp He Hrm (Hall & Hsum & Hmax).
  destruct (removed_resident _ _ _ _ Hwf Hp He Hrm) as [_ Hperm].
  rewrite Hperm in Hall. rewrite (sum_costs_perm _ _ Hperm) in Hsum.
  apply Forall_cons in Hall as [Hce Hall]. simpl in Hsum.
  unfold within_budget. rewrite (rm_maxCost _ _ _ _ Hrm).
  split; [done|]. split; [lia|done].
Qed.

Lemma budget_evicted c gone c' :
  Forall (λ e, 0 ≤ cost e) (resident c) →
  sum_costs (resident c) ≤ max_int64 →
  evicted_back c gone c' → wf c' →
  evictListCost c' ≤ maxCost c' → maxCost c' ≤ max_int64 →
  within_budget c'.
Proof.
  intros Hall Hsum Heb Hwf' Hle Hmax.
  rewrite (evicted_back_resident _ _ _ Heb) in Hall, Hsum.
  apply Forall_app in Hall as [Hall Hgone].
  rewrite sum_costs_app in Hsum.
  pose proof (sum_costs_nonneg _ Hall). pose proof (sum_costs_nonneg _ Hgone).
  split; [done|]. split; [|done].
  rewrite (wf_cost _ Hwf'), wrap64_small in Hle; lia.
Qed.

Lemma exec_budget o c c' :
  wf c → within_budget c → valid_op c o → no_overflow c o →
  exec o c = Some c' → within_budget c'.
Proof.
  intros Hwf Hb Hval Hno Hex.
  pose proof (budget_cost c Hwf Hb) as Hcost.
  pose proof Hb as (Hall & Hsum & Hmax).
  destruct o as [k v cst|k|k|k|k| | | | | |m|order]; simpl in Hex, Hval, Hno.
  - destruct (items c !! k) as [p|] eqn:Hk.
    + destruct (Add_existing c k v cst p Hwf Hk) as (e & He & Hke & Hrun).
      rewrite Hrun in Hex. injection Hex as <-.
      apply budget_replaced; [done| |done|done].
      by destruct (wf_items _ Hwf k p Hk).
    + destruct (decide (cst > maxCost c)) as [Hc|Hc].
      { by rewrite Add_new_panic in Hex. }
      destruct (Add_new c k v cst Hwf Hk Hc)
        as (gone & c1 & Hrun & Heb & Hwf1 & Hle & _).
      rewrite Hrun in Hex. injection Hex as <-.
      apply (budget_evicted (pushed k v cst c) gone c1); try done.
      * rewrite resident_pushed by done. apply Forall_cons. by destruct Hno.
      * rewrite resident_pushed by done. simpl. lia.
      * by rewrite (eb_maxCost _ _ _ Heb).
  - rewrite Get_spec in Hex by done.
    destruct (items c !! k) as [p|] eqn:Hk; simplify_eq/=; [|done].
    apply budget_promoted; [done| |done]. by destruct (wf_items _ Hwf k p Hk).
  - by simplify_eq/=.
  - rewrite Peek_spec in Hex by done. by simplify_eq/=.
  - destruct (items c !! k) as [p|] eqn:Hk.
    + destruct (Remove_spec c k p Hwf Hk) as (e & c1 & He & _ & Hrun & Hrm & _).
      rewrite Hrun in Hex. injection Hex as <-.
      eapply budget_removed; eauto. by destruct (wf_items _ Hwf k p Hk).
    + unfold Remove in Hex. rewrite Hk in Hex. by simplify_eq/=.
  - destruct (evictList c) as [|x l _] eqn:Hl using rev_ind.
    + destruct (Oldest_empty c Hl) as [_ Hrun].
      rewrite Hrun in Hex. by simplify_eq/=.
    + destruct (Oldest_spec c l x Hwf Hl) as (e & c1 & He & _ & Hrun & Hrm & _).
      rewrite Hrun in Hex. injection Hex as <-.
      eapply budget_removed; eauto.
      rewrite Hl. apply elem_of_app. right. by left.
  - destruct (evictList c) as [|x l _] eqn:Hl using rev_ind.
    + destruct (Oldest_empty c Hl) as [Hrun _].
      rewrite Hrun in Hex. by simplify_eq/=.
    + destruct (Oldest_spec c l x Hwf Hl) as (e & c1 & _ & Hrun & _).
      rewrite Hrun in Hex. by simplify_eq/=.
  - rewrite Keys_spec in Hex by done. by simplify_eq/=.
  - by simplify_eq/=.
  - by simplify_eq/=.
  - unfold Resize in Hex. destruct (decide (m ≤ 0)) as [|Hm]; [done|].
    destruct (Resize_spec c m Hwf) as (gone & c1 & Hrun & Heb & Hwf1 & Hle & _);
      [lia|].
    unfold Resize in Hrun. rewrite decide_False in Hrun by done.
    rewrite Hrun in Hex. injection Hex as <-.
    apply (budget_evicted (set_maxCost m c) gone c1); try done.
    * change (resident (set_maxCost m c)) with (resident c). lia.
    * rewrite (eb_maxCost _ _ _ Heb). simpl. apply Hval.
  - destruct (Purge_spec order c Hwf Hval)
      as (c1 & Hrun & Hl1 & _ & _ & _ & _ & _ & Hm1 & _ & _).
    rewrite Hrun in Hex. injection Hex as <-.
    unfold within_budget, resident. rewrite Hl1, Hm1. simpl.
    pose proof (wf_maxCost _ Hwf). split; [done|]. split; [lia|done].
Qed.

Lemma reachable_budget c : reachable_by no_overflow c → within_budget c.
Proof.
  induction 1 as [m cb c Hm Hnew|c o c' Hreach IH Hval Hno Hex].
  - unfold NewLRU in Hnew. destruct (decide (m ≤ 0)); [done|].
    injection Hnew as <-. unfold within_budget, resident. simpl.
    split; [done|]. split; [lia|apply Hm].
  - eapply exec_budget; eauto. by eapply reachable_by_wf.
Qed.

Lemma exec_capacity o c c' :
  wf c → evictListCost c ≤ maxCost c → valid_op c o → no_removal c o →
  exec o c = Some c' → evictListCost c' ≤ maxCost c'.
Proof.
  intros Hwf Hle Hval Hno Hex.
  destruct o as [k v cst|k|k|k|k| | | | | |m|order];
    simpl in Hex, Hval, Hno; try done.
  - destruct (items c !! k) as [p|] eqn:Hk.
    + destruct (Add_existing c k v cst p Hwf Hk) as (e & He & Hke & Hrun).
      rewrite Hrun in Hex. by injection Hex as <-.
    + destruct (decide (cst > maxCost c)) as [Hc|Hc].
      { by rewrite Add_new_panic in Hex. }
      destruct (Add_new c k v cst Hwf Hk Hc)
        as (gone & c1 & Hrun & _ & _ & Hle1 & _).
      rewrite Hrun in Hex. by injection Hex as <-.
  - rewrite Get_spec in Hex by done.
    destruct (items c !! k) as [p|] eqn:Hk; by simplify_eq/=.
  - by simplify_eq/=.
  - rewrite Peek_spec in Hex by done. by simplify_eq/=.
  - destruct (evictList c) as [|x l _] eqn:Hl using rev_ind.
    + destruct (Oldest_empty c Hl) as [Hrun _].
      rewrite Hrun in Hex. by simplify_eq/=.
    + destruct (Oldest_spec c l x Hwf Hl) as (e & c1 & _ & Hrun & _).
      rewrite Hrun in Hex. by simplify_eq/=.
  - rewrite Keys_spec in Hex by done. by simplify_eq/=.
  - by simplify_eq/=.
  - by simplify_eq/=.
  - unfold Resize in Hex. destruct (decide (m ≤ 0)) as [|Hm]; [done|].
    destruct (Resize_spec c m Hwf) as (gone & c1 & Hrun & _ & _ & Hle1 & _);
      [lia|].
    unfold Resize in Hrun. rewrite decide_False in Hrun by done.
    rewrite Hrun in Hex. by injection Hex as <-.
  - destruct (Purge_spec order c Hwf Hval)
      as (c1 & Hrun & _ & Hc1 & _ & _ & _ & _ & Hm1 & _ & _).
    rewrite Hrun in Hex. injection Hex as <-.
    rewrite Hc1, Hm1. pose proof (wf_maxCost _ Hwf). lia.
Qed.

Lemma reachable_capacity c :
  reachable_by no_removal c → evictListCost c ≤ maxCost c.
Proof.
  induction 1 as [m cb c Hm Hnew|c o c' Hreach IH Hval Hno Hex].
  - unfold NewLRU in Hnew. destruct (decide (m ≤ 0)); [done|].
    injection Hnew as <-. simpl. lia.
  - eapply exec_capacity; eauto. by eapply reachable_by_wf.
Qed.

(** C1, amended. For every store made by [NewLRU] and changed by public
    operations that return normally, [Add] being called with costs that are
    not negative: after each operation [Cost() <= maxCost], provided that
    no [Add] makes the accumulator wrap around ([Cost() + cost] does not
    exceed the largest [int64]; [Cost()] is then the sum of the costs of the
    resident entries), or that [Remove] and [RemoveOldest] are not among the
    operations. *)
Theorem capacity_invariant c :
  (reachable_by no_overflow c →
   Cost c = Ret (evictListCost c) c ∧
   evictListCost c ≤ maxCost c ∧
   evictListCost c = sum_costs (resident c)) ∧
  (reachable_by no_removal c →
   Cost c = Ret (evictListCost c) c ∧
   evictListCost c ≤ maxCost c).
Proof.
  split.
  - intros Hreach. pose proof (reachable_by_wf _ _ Hreach) as Hwf.
    pose proof (reachable_budget _ Hreach) as Hb.
    pose proof (budget_cost c Hwf Hb) as Hcost.
    destruct Hb as (_ & Hsum & _). split; [done|]. split; [lia|done].
  - intros Hreach. split; [done|]. by apply reachable_capacity.
Qed.

(** * Further properties of the operations *)

(** ** A new or empty store *)

Lemma wf_empty c :
  wf c → evictList c = [] → items c = ∅ ∧ evictListCost c = 0.
Proof.
  intros Hwf Hl. split.
  - apply map_eq. intros k. rewrite lookup_empty.
    destruct (items c !! k) as [p|] eqn:Hk; [|done].
    destruct (wf_items _ Hwf k p Hk) as [Hp _]. rewrite Hl in Hp.
    by apply elem_of_nil in Hp.
  - rewrite (wf_cost _ Hwf). unfold resident. by rewrite Hl.
Qed.

(** X1. [NewLRU] fails exactly when the ceiling is not positive, and the
    store it returns has that ceiling and no entry.  On every reachable
    store without entries, the store of [NewLRU] among them, [Cost] is 0,
    [Keys] is empty, no key is found by [Contains], [Get], [Peek] or
    [Remove], and there is no oldest entry; none of these calls changes the
    store. *)
Theorem new_and_empty_store :
  (∀ m cb, NewLRU (K := K) (V := V) m cb = None ↔ m ≤ 0) ∧
  (∀ m cb c, NewLRU m cb = Some c →
     maxCost c = m ∧ onEvict c = cb ∧ Len c = Ret 0%nat c) ∧
  (∀ c, reachable c → Len c = Ret 0%nat c →
     Cost c = Ret 0 c ∧ Keys c = Ret [] c ∧
     GetOldest c = Ret None c ∧ RemoveOldest c = Ret None c ∧
     ∀ k, Contains k c = Ret false c ∧ Get k c = Ret None c ∧
          Peek k c = Ret None c ∧ Remove k c = Ret false c).
Proof.
  split; [|split].
  - intros m cb. unfold NewLRU. destruct (decide (m ≤ 0)); split; done.
  - intros m cb c. unfold NewLRU. destruct (decide (m ≤ 0)); [done|].
    by intros [= <-].
  - intros c Hwf%reachable_by_wf [= Hlen]. unfold List.Len in Hlen.
    apply length_zero_iff_nil in Hlen.
    destruct (wf_empty c Hwf Hlen) as [Hi Hc].
    destruct (Oldest_empty c Hlen) as [Hget Hrm].
    split; [unfold Cost; by rewrite Hc|].
    split; [rewrite Keys_spec by done; unfold resident; by rewrite Hlen|].
    split; [done|]. split; [done|]. intros k.
    rewrite Get_spec, Peek_spec by done. unfold Contains, Remove.
    rewrite Hi, lookup_empty. by repeat split.
Qed.

(** ** Get *)

(** X2. On a reachable store [Get] of a key that is not resident finds
    nothing and changes nothing.  [Get] of a resident key returns its value
    and makes its entry the front of the recency order, the other entries
    keeping their order; the index, the memory of the entries, the
    accumulator, the ceiling and the callback trace stay as they are. *)
Theorem Get_behaviour c k :
  reachable c →
  (Contains k c = Ret false c → Get k c = Ret None c) ∧
  (Contains k c = Ret true c →
   ∃ e c',
     e ∈ resident c ∧ key e = k ∧
     Get k c = Ret (Some (value e)) c' ∧
     resident c' = e :: filter (λ e', key e' ≠ k) (resident c) ∧
     Keys c' = Ret (Some <$>
       (reverse (filter (λ k', k' ≠ k) (key <$> resident c)) ++ [k])) c' ∧
     Len c' = Ret (length (evictList c)) c' ∧
     Cost c' = Ret (evictListCost c) c' ∧
     items c' = items c ∧ heap c' = heap c ∧
     maxCost c' = maxCost c ∧ calls c' = calls c).
Proof.
  intros Hwf%reachable_by_wf. rewrite Get_spec by done. split.
  - intros Hk%Contains_false. by rewrite Hk.
  - intros [p Hk]%Contains_true. rewrite Hk.
    destruct (wf_items _ Hwf k p Hk) as (Hp & e & He & Hke).
    assert (resident (promoted p c)
      = e :: filter (λ e', key e' ≠ k) (resident c)) as Hres.
    { rewrite (resident_promoted c p e), (ents_Remove c p e) by done.
      by rewrite Hke. }
    exists e, (promoted p c). rewrite He.
    split; [apply list_elem_of_omap; by exists p|].
    do 3 (split; [done|]). split.
    { rewrite Keys_spec by by apply wf_promoted.
      rewrite Hres. cbn [fmap list_fmap]. rewrite reverse_cons, Hke.
      do 4 f_equal. clear. induction (resident c) as [|e' es IH]; [done|].
      cbn [fmap list_fmap]. rewrite !filter_cons.
      destruct (decide (key e' ≠ k)); cbn [fmap list_fmap]; by rewrite IH. }
    split; [|done]. unfold Len, List.Len. f_equal.
    change (evictList (promoted p c)) with (p :: List.Remove p (evictList c)).
    by rewrite Remove_perm by (done || apply Hwf).
Qed.

(** ** Add of a new key *)

Lemma ents_grown c x l :
  wf c → (∀ p, p ∈ l → p ∈ evictList c) →
  ents (heap c ++ [x]) l = ents (heap c) l.
Proof.
  intros Hwf Hsub. apply ents_ext. intros p Hp.
  destruct (wf_list _ Hwf p (Hsub p Hp)) as (e & He & _).
  rewrite He. by apply lookup_app_l_Some.
Qed.

Lemma ents_resident_key c l e :
  wf c → (∀ p, p ∈ l → p ∈ evictList c) → e ∈ ents (heap c) l →
  e ∈ resident c ∧ is_Some (items c !! key e).
Proof.
  intros Hwf Hsub (p & Hp & He)%list_elem_of_omap.
  destruct (wf_list _ Hwf p (Hsub p Hp)) as (e' & He' & Hi). simplify_eq.
  split; [|by exists p]. apply list_elem_of_omap. exists p. eauto.
Qed.

(** The loop of [Add] stops before it reaches the entry just inserted: alone,
    that entry is within the ceiling. *)
Lemma Add_new_survives c k v cst :
  wf c → in_int64 cst → items c !! k = None → ¬ cst > maxCost c →
  ∃ keep gone c',
    evictList c = keep ++ gone ∧
    Add k v cst c = Ret (length gone) c' ∧ wf c' ∧
    evictList c' = length (heap c) :: keep ∧
    heap c' = heap c ++ [Entry k v cst] ∧
    (∀ k', items c' !! k' =
       if decide (k' ∈ key <$> ents (heap c) gone) then None
       else <[k := length (heap c)]> (items c) !! k') ∧
    evictListCost c' =
      wrap64 (evictListCost c + cst - sum_costs (ents (heap c) gone)) ∧
    calls c' = calls c ++
      (if onEvict c then call_of <$> ents (heap c) (reverse gone) else []) ∧
    maxCost c' = maxCost c ∧ onEvict c' = onEvict c ∧
    evictListCost c' ≤ maxCost c.
Proof.
  intros Hwf Hcst Hk Hc.
  destruct (Add_new c k v cst Hwf Hk Hc)
    as (gone & c' & Hrun & Heb & Hwf' & Hle & Hmin).
  pose proof Heb as [Hl Hi Hcost Ht Hh Hm Hcb].
  cbn [pushed evictList heap evictListCost maxCost onEvict calls items] in *.
  destruct (evictList c') as [|p keep] eqn:Hl'.
  - exfalso. simpl in Hl. subst gone.
    specialize (Hmin (evictList c) [length (heap c)] eq_refl).
    rewrite ents_grown in Hmin by done. fold (resident c) in Hmin.
    rewrite wrap64_sub_l, (wf_cost _ Hwf) in Hmin.
    replace (wrap64 (sum_costs (resident c)) + cst - sum_costs (resident c))
      with (wrap64 (sum_costs (resident c)) + (cst - sum_costs (resident c)))
      in Hmin by lia.
    rewrite wrap64_add_l in Hmin.
    replace (sum_costs (resident c) + (cst - sum_costs (resident c)))
      with cst in Hmin by lia.
    rewrite wrap64_id in Hmin by done.
    assert ([length (heap c)] ≠ []) as Hne by done.
    specialize (Hmin Hne). lia.
  - simpl in Hl. injection Hl as <- Hl.
    assert (∀ q, q ∈ gone → q ∈ evictList c) as Hsub.
    { intros q Hq. rewrite Hl. apply elem_of_app. by right. }
    assert (∀ q, q ∈ reverse gone → q ∈ evictList c) as Hsub'.
    { intros q Hq. apply Hsub. by rewrite elem_of_reverse in Hq. }
    rewrite (ents_grown c _ gone) in Hi, Hcost by done.
    rewrite (ents_grown c _ (reverse gone)) in Ht by done.
    exists keep, gone, c'. rewrite Hm in Hle.
    do 5 (split; [done|]). split; [done|].
    split; [|done]. rewrite Hcost, wrap64_sub_l. done.
Qed.

(** X3. On a reachable store, [Add] of a key that is not resident, with an
    [int64] cost within the ceiling, returns the number of entries it
    evicted.  These are the last elements [gone] of the recency list, the
    oldest first, each reported to the callback in that order; the entry
    just inserted is never among them.  Afterwards the new entry is the
    front of the recency order, before the entries [keep] that stay; the
    accumulator is the old one plus the cost minus the costs evicted
    (wrapped), and is within the ceiling; [Len] is [1 + |keep|]; the key is
    found with its value. *)
Theorem Add_new_key c k v cst :
  reachable c → in_int64 cst →
  Contains k c = Ret false c → cst ≤ maxCost c →
  ∃ keep gone c',
    evictList c = keep ++ gone ∧
    Add k v cst c = Ret (length gone) c' ∧
    resident c' = Entry k v cst :: ents (heap c) keep ∧
    resident c = ents (heap c) keep ++ ents (heap c) gone ∧
    calls c' = calls c ++
      (if onEvict c then call_of <$> ents (heap c) (reverse gone) else []) ∧
    evictListCost c' =
      wrap64 (evictListCost c + cst - sum_costs (ents (heap c) gone)) ∧
    evictListCost c' ≤ maxCost c' ∧ maxCost c' = maxCost c ∧
    Len c' = Ret (S (length keep)) c' ∧
    Peek k c' = Ret (Some v) c' ∧
    (∀ e, e ∈ ents (heap c) gone → Contains (key e) c' = Ret false c').
Proof.
  intros Hwf%reachable_by_wf Hcst Hk%Contains_false Hc.
  destruct (Add_new_survives c k v cst Hwf Hcst Hk)
    as (keep & gone & c' & Hl & Hrun & Hwf' & Hl' & Hh & Hi & Hcost & Ht
        & Hm & Hcb & Hle); [lia|].
  assert (∀ q, q ∈ gone → q ∈ evictList c) as Hgone.
  { intros q Hq. rewrite Hl. apply elem_of_app. by right. }
  assert (∀ q, q ∈ keep → q ∈ evictList c) as Hkeep.
  { intros q Hq. rewrite Hl. apply elem_of_app. by left. }
  assert (k ∉ key <$> ents (heap c) gone) as Hknew.
  { intros (e & -> & He)%list_elem_of_fmap.
    destruct (ents_resident_key c gone e Hwf Hgone He) as [_ [p Hp]].
    congruence. }
  exists keep, gone, c'. do 2 (split; [done|]).
  split.
  { unfold resident. rewrite Hl', Hh.
    rewrite (ents_cons _ _ _ (Entry k v cst)) by by rewrite list_lookup_middle.
    f_equal. by apply ents_grown. }
  split; [unfold resident; by rewrite Hl, ents_app|].
  do 2 (split; [done|]). split; [by rewrite Hm|]. split; [done|].
  split; [unfold Len, List.Len; by rewrite Hl'|].
  split.
  - unfold Peek. rewrite Hi, decide_False, lookup_insert_eq by done.
    by rewrite Hh, list_lookup_middle.
  - intros e He. unfold Contains. f_equal. apply bool_decide_eq_false.
    rewrite Hi, decide_True; [by intros [? ?]|].
    by apply list_elem_of_fmap_2.
Qed.

(** ** Add, then look up *)

(** X4. On a reachable store, whenever [Add key value cost] returns, with
    any [int64] cost, the key is resident with that value, and it is the
    newest key: the last of [Keys]. *)
Theorem Add_then_lookup c k v cst n c' :
  reachable c → in_int64 cst → Add k v cst c = Ret n c' →
  Contains k c' = Ret true c' ∧
  Peek k c' = Ret (Some v) c' ∧
  ∃ ks, Keys c' = Ret (Some <$> (ks ++ [k])) c'.
Proof.
  intros Hwf%reachable_by_wf Hcst Hrun.
  assert (wf c' ∧ Peek k c' = Ret (Some v) c' ∧
          ∃ es, resident c' = Entry k v cst :: es
             ∨ ∃ z, resident c' = Entry k v z :: es)
    as (Hwf' & Hpeek & es & Hres).
  { destruct (items c !! k) as [p|] eqn:Hk.
    - destruct (Add_existing c k v cst p Hwf Hk) as (e & He & Hke & Hrun').
      destruct (wf_items _ Hwf k p Hk) as (Hp & _).
      rewrite Hrun' in Hrun. injection Hrun as _ <-.
      split; [by apply wf_replaced|]. split; [by apply Peek_replaced|].
      eexists. right. exists (cost e).
      rewrite resident_replaced by done. by rewrite Hke.
    - destruct (decide (cst > maxCost c)) as [Hc|Hc].
      { by rewrite Add_new_panic in Hrun. }
      destruct (Add_new_survives c k v cst Hwf Hcst Hk Hc)
        as (keep & gone & c1 & Hl & Hrun' & Hwf1 & Hl1 & Hh1 & Hi1 & _).
      rewrite Hrun' in Hrun. injection Hrun as _ <-.
      assert (k ∉ key <$> ents (heap c) gone) as Hknew.
      { intros (e & -> & He)%list_elem_of_fmap.
        destruct (ents_resident_key c gone e Hwf) as [_ [p Hp]]; [|done|].
        - intros q Hq. rewrite Hl. apply elem_of_app. by right.
        - congruence. }
      split; [done|]. split.
      + unfold Peek. rewrite Hi1, decide_False, lookup_insert_eq by done.
        by rewrite Hh1, list_lookup_middle.
      + eexists. left. unfold resident. rewrite Hl1, Hh1.
        by rewrite (ents_cons _ _ _ (Entry k v cst))
          by by rewrite list_lookup_middle. }
  split.
  - apply Contains_resident; [done|].
    destruct Hres as [->|[z ->]]; by left.
  - split; [done|]. exists (reverse (key <$> es)).
    rewrite Keys_spec by done.
    destruct Hres as [->|[z ->]]; cbn [fmap list_fmap key];
      by rewrite reverse_cons.
Qed.

(** ** Which calls fail *)

(** X5. On a reachable store the only calls that do not return normally are
    [Add] of a key that is not resident with a cost above the ceiling, and
    [Resize] to a ceiling that is not positive.  Every other call, and in
    particular every loop of [Add], [Resize], [Keys] and [Purge], returns. *)
Theorem calls_that_fail c o :
  reachable c → valid_op c o →
  (exec o c = None ↔
   (∃ k v cst, o = OpAdd k v cst ∧
      Contains k c = Ret false c ∧ cst > maxCost c) ∨
   (∃ m, o = OpResize m ∧ m ≤ 0)).
Proof.
  intros Hwf%reachable_by_wf Hval. split.
  - intros Hex.
    destruct o as [k v cst|k|k|k|k| | | | | |m|order]; simpl in Hex, Hval.
    + left. exists k, v, cst. split; [done|].
      destruct (items c !! k) as [p|] eqn:Hk.
      { destruct (Add_existing c k v cst p Hwf Hk) as (e & _ & _ & Hrun).
        by rewrite Hrun in Hex. }
      split.
      { unfold Contains. f_equal. apply bool_decide_eq_false.
        rewrite Hk. by intros [? ?]. }
      destruct (decide (cst > maxCost c)) as [Hc|Hc]; [done|].
      destruct (Add_new c k v cst Hwf Hk Hc) as (gone & c1 & Hrun & _).
      by rewrite Hrun in Hex.
    + rewrite Get_spec in Hex by done. by destruct (items c !! k).
    + done.
    + by rewrite Peek_spec in Hex by done.
    + destruct (items c !! k) as [p|] eqn:Hk.
      * destruct (Remove_spec c k p Hwf Hk) as (e & c1 & _ & _ & Hrun & _).
        by rewrite Hrun in Hex.
      * unfold Remove in Hex. by rewrite Hk in Hex.
    + destruct (evictList c) as [|x l _] eqn:Hl using rev_ind.
      * destruct (Oldest_empty c Hl) as [_ Hrun]. by rewrite Hrun in Hex.
      * destruct (Oldest_spec c l x Hwf Hl) as (e & c1 & _ & _ & Hrun & _).
        by rewrite Hrun in Hex.
    + destruct (evictList c) as [|x l _] eqn:Hl using rev_ind.
      * destruct (Oldest_empty c Hl) as [Hrun _]. by rewrite Hrun in Hex.
      * destruct (Oldest_spec c l x Hwf Hl) as (e & c1 & _ & Hrun & _).
        by rewrite Hrun in Hex.
    + by rewrite Keys_spec in Hex by done.
    + done.
    + done.
    + right. exists m. split; [done|].
      destruct (decide (m ≤ 0)) as [|Hm]; [done|].
      destruct (Resize_spec c m Hwf) as (gone & c1 & Hrun & _); [lia|].
      by rewrite Hrun in Hex.
    + destruct (Purge_spec order c Hwf Hval) as (c1 & Hrun & _).
      by rewrite Hrun in Hex.
  - intros [(k & v & cst & -> & Hk%Contains_false & Hc)|(m & -> & Hm)]; simpl.
    + by rewrite Add_new_panic.
    + unfold Resize. by rewrite decide_True.
Qed.

(** ** Remove *)

(** X6. On a reachable store [Remove] of a key that is not resident returns
    false and changes nothing.  [Remove] of a resident key returns true; its
    entry leaves and the others keep their order; the accumulator loses the
    cost of the entry (wrapped), [Len] drops by one, and the callback, when
    set, is called once, with the entry's key, value and cost.  The key is
    not resident afterwards, so that a second [Remove] returns false. *)
Theorem Remove_behaviour c k :
  reachable c →
  (Contains k c = Ret false c → Remove k c = Ret false c) ∧
  (Contains k c = Ret true c →
   ∃ e c',
     e ∈ resident c ∧ key e = k ∧
     Remove k c = Ret true c' ∧
     resident c' = filter (λ e', key e' ≠ k) (resident c) ∧
     Cost c' = Ret (wrap64 (evictListCost c - cost e)) c' ∧
     S (length (evictList c')) = length (evictList c) ∧
     calls c' = calls c ++ (if onEvict c then [call_of e] else []) ∧
     maxCost c' = maxCost c ∧
     Contains k c' = Ret false c' ∧
     Remove k c' = Ret false c').
Proof.
  intros Hwf%reachable_by_wf. split.
  - intros Hk%Contains_false. unfold Remove. by rewrite Hk.
  - intros [p Hk]%Contains_true.
    destruct (Remove_spec c k p Hwf Hk) as (e & c' & He & Hke & Hrun & Hrm & Hwf').
    destruct (wf_items _ Hwf k p Hk) as (Hp & _).
    destruct (removed_resident _ _ _ _ Hwf Hp He Hrm) as [Hres Hperm].
    assert (items c' !! k = None) as Hgone.
    { by rewrite (rm_items _ _ _ _ Hrm), Hke, lookup_delete_eq. }
    exists e, c'.
    split; [apply list_elem_of_omap; by exists p|]. do 2 (split; [done|]).
    split; [by rewrite Hres, Hke|].
    split; [unfold Cost; by rewrite (rm_cost _ _ _ _ Hrm)|].
    split.
    { rewrite <- (wf_resident_length c' Hwf'), <- (wf_resident_length c Hwf).
      by rewrite Hperm. }
    split; [apply Hrm|]. split; [apply Hrm|]. split.
    + unfold Contains. f_equal. apply bool_decide_eq_false.
      rewrite Hgone. by intros [? ?].
    + unfold Remove. by rewrite Hgone.
Qed.

(** ** Add, then Remove *)

(** X7. On a reachable store, when [Add] of a key that is not resident
    evicts nothing, [Remove] of that key next restores the recency list, the
    index, the accumulator (also where the additions wrap around) and the
    ceiling: [Keys], [Len] and [Cost] are what they were before the [Add].
    The callback, when set, is called once, for the entry added. *)
Theorem Add_then_Remove c k v cst c1 :
  reachable c → in_int64 cst →
  Contains k c = Ret false c → Add k v cst c = Ret 0%nat c1 →
  ∃ c2,
    Remove k c1 = Ret true c2 ∧
    evictList c2 = evictList c ∧ items c2 = items c ∧
    evictListCost c2 = evictListCost c ∧ maxCost c2 = maxCost c ∧
    resident c2 = resident c ∧
    (∃ r, Keys c = Ret r c ∧ Keys c2 = Ret r c2) ∧
    calls c2 = calls c ++ (if onEvict c then [(k, v, cst)] else []).
Proof.
  intros Hwf%reachable_by_wf Hcst Hk%Contains_false Hrun.
  destruct (decide (cst > maxCost c)) as [Hc|Hc].
  { by rewrite Add_new_panic in Hrun. }
  destruct (Add_new_survives c k v cst Hwf Hcst Hk Hc)
    as (keep & gone & c1' & Hl & Hrun' & Hwf1 & Hl1 & Hh1 & Hi1 & Hcost1 & Ht1
        & Hm1 & Hcb1 & _).
  rewrite Hrun' in Hrun. injection Hrun as Hlen <-.
  apply length_zero_iff_nil in Hlen. subst gone.
  rewrite app_nil_r in Hl. subst keep. simpl in *.
  rewrite Z.sub_0_r in Hcost1.
  assert (items c1' = <[k := length (heap c)]> (items c)) as Hi1'.
  { apply map_eq. intros k'. by rewrite Hi1. }
  assert (calls c1' = calls c) as Ht1'.
  { rewrite Ht1. destruct (onEvict c); by rewrite app_nil_r. }
  assert (heap c1' !! length (heap c) = Some (Entry k v cst)) as He.
  { by rewrite Hh1, list_lookup_middle. }
  assert (items c1' !! k = Some (length (heap c))) as Hk1.
  { by rewrite Hi1', lookup_insert_eq. }
  destruct (Remove_spec c1' k _ Hwf1 Hk1)
    as (e & c2 & He' & _ & Hrm & [Hl2 Hi2 Hc2 Ht2 Hh2 Hm2 Hcb2] & Hwf2).
  rewrite He in He'. injection He' as <-. simpl in *.
  assert (length (heap c) ∉ evictList c) as Hfresh.
  { intros Hin%(wf_ptr_lt _ _ Hwf). lia. }
  assert (evictList c2 = evictList c) as Hl2'.
  { rewrite Hl2, Hl1. unfold List.Remove.
    rewrite filter_cons_False by (intros Hne; by apply Hne).
    by apply filter_ne_notin. }
  assert (resident c2 = resident c) as Hres.
  { unfold resident. rewrite Hl2', Hh2, Hh1. by apply ents_grown. }
  exists c2. split; [done|]. split; [done|].
  split; [by rewrite Hi2, Hi1', delete_insert_id|].
  split.
  { rewrite Hc2, Hcost1, wrap64_sub_l.
    replace (evictListCost c + cst - cst) with (evictListCost c) by lia.
    by apply wrap64_id, wf_in_int64. }
  split; [by rewrite Hm2|]. split; [done|]. split.
  - eexists. rewrite !Keys_spec by done. by rewrite Hres.
  - by rewrite Ht2, Ht1', Hcb1.
Qed.

(** ** What every reachable store satisfies *)

(** X8. On a reachable store [Len] is the number of keys [Keys] returns
    and the number of keys in the index: the index and the recency list
    hold the same entries, one per key. *)
Theorem Len_Keys_index c :
  reachable c →
  ∃ ks, Keys c = Ret (Some <$> ks) c ∧ NoDup ks ∧
        Len c = Ret (length ks) c ∧ size (items c) = length ks ∧
        ∀ k, k ∈ ks ↔ is_Some (items c !! k).
Proof.
  intros Hwf%reachable_by_wf.
  exists (reverse (key <$> resident c)).
  split; [by apply Keys_spec|].
  split; [rewrite reverse_Permutation; by apply wf_keys_NoDup|].
  assert (length (reverse (key <$> resident c)) = length (evictList c)) as Hlen.
  { by rewrite length_reverse, length_fmap, wf_resident_length. }
  split; [unfold Len, List.Len; by rewrite Hlen|].
  split; [by rewrite Hlen, wf_size|].
  intros k. rewrite elem_of_reverse, <- Contains_resident by done.
  unfold Contains. split.
  - intros [= Hk]. by apply bool_decide_eq_true in Hk.
  - intros Hk. f_equal. by apply bool_decide_eq_true.
Qed.

(** X9. On every reachable store, whatever the costs were, also negative
    ones and sums that wrapped around, [Cost] is the sum of the costs of the
    resident entries reduced to an [int64], and the ceiling is positive. *)
Theorem Cost_is_wrapped_sum c :
  reachable c →
  Cost c = Ret (wrap64 (sum_costs (resident c))) c ∧ 0 < maxCost c.
Proof.
  intros Hwf%reachable_by_wf. unfold Cost.
  rewrite <- (wf_cost _ Hwf). split; [done|apply Hwf].
Qed.

(** ** The callback *)

Lemma ents_length_in c l :
  wf c → (∀ p, p ∈ l → p ∈ evictList c) →
  length (ents (heap c) l) = length l.
Proof.
  intros Hwf Hsub. apply ents_length. intros p Hp.
  destruct (wf_list _ Hwf p (Hsub p Hp)) as (e & He & _). by exists e.
Qed.

(** X10. For every operation that returns on a reachable store: the
    callback is the one the store was made with; a nil callback is never
    called; the calls made report entries [left] that were resident before
    the operation and whose keys are not resident after it, each with its
    key, value and cost; and as many entries are reported as have left
    ([Len] before, plus one for an [Add] of a new key, is [Len] after plus
    the number reported).  The operations that only read make no call and
    return the store they were given. *)
Theorem callback_accounting c o c' :
  reachable c → valid_op c o → exec o c = Some c' →
  onEvict c' = onEvict c ∧
  ∃ left,
    calls c' = calls c ++ (if onEvict c then call_of <$> left else []) ∧
    (∀ e, e ∈ left → e ∈ resident c ∧ Contains (key e) c' = Ret false c') ∧
    (length (evictList c) + inserts c o
       = length (evictList c') + length left)%nat ∧
    (reads_only o = true → left = [] ∧ c' = c).
Proof.
  intros Hwf%reachable_by_wf Hval Hex.
  assert (∀ c1 : LRU K V, calls c1 =
    calls c1 ++ (if onEvict c1 then call_of <$> [] else [])) as Hnone.
  { intros c1. destruct (onEvict c1); by rewrite app_nil_r. }
  assert (∀ k, items c' !! k = None → Contains k c' = Ret false c') as Hout.
  { intros k Hk. unfold Contains. f_equal. apply bool_decide_eq_false.
    rewrite Hk. by intros [? ?]. }
  destruct o as [k v cst|k|k|k|k| | | | | |m|order]; simpl in Hex, Hval.
  - destruct (items c !! k) as [p|] eqn:Hk.
    + destruct (Add_existing c k v cst p Hwf Hk) as (e & He & Hke & Hrun).
      destruct (wf_items _ Hwf k p Hk) as (Hp & _).
      rewrite Hrun in Hex. injection Hex as <-.
      split; [done|]. exists []. split; [apply (Hnone c)|].
      split; [by intros e' ?%elem_of_nil|]. split; [|done].
      cbn [inserts]. rewrite Hk.
      change (evictList (replaced p e v c))
        with (p :: List.Remove p (evictList c)).
      rewrite Remove_perm by (done || apply Hwf). simpl. lia.
    + destruct (decide (cst > maxCost c)) as [Hc|Hc].
      { by rewrite Add_new_panic in Hex. }
      destruct (Add_new_survives c k v cst Hwf Hval Hk Hc)
        as (keep & gone & c1 & Hl & Hrun & Hwf1 & Hl1 & Hh1 & Hi1 & _ & Ht1
            & _ & Hcb1 & _).
      rewrite Hrun in Hex. injection Hex as <-.
      assert (∀ q, q ∈ gone → q ∈ evictList c) as Hgone.
      { intros q Hq. rewrite Hl. apply elem_of_app. by right. }
      assert (∀ q, q ∈ reverse gone → q ∈ evictList c) as Hgone'.
      { intros q Hq. apply Hgone. by rewrite elem_of_reverse in Hq. }
      split; [done|]. exists (ents (heap c) (reverse gone)).
      split; [done|]. split; [|split; [|done]].
      * intros e He.
        split; [by destruct (ents_resident_key c _ e Hwf Hgone' He)|].
        apply Hout. rewrite Hi1, decide_True; [done|].
        apply list_elem_of_fmap_2. rewrite ents_reverse in He.
        by rewrite elem_of_reverse in He.
      * cbn [inserts]. rewrite Hk, Hl1, Hl, length_app.
        rewrite ents_length_in, length_reverse by done. simpl. lia.
  - rewrite Get_spec in Hex by done.
    destruct (items c !! k) as [p|] eqn:Hk; injection Hex as <-;
      (split; [done|]); exists []; (split; [apply (Hnone c)|]);
      (split; [by intros e' ?%elem_of_nil|]); (split; [|done]).
    + destruct (wf_items _ Hwf k p Hk) as (Hp & _).
      change (evictList (promoted p c))
        with (p :: List.Remove p (evictList c)).
      rewrite Remove_perm by (done || apply Hwf). simpl. lia.
    + simpl. lia.
  - injection Hex as <-. split; [done|]. exists [].
    split; [apply Hnone|]. split; [by intros e' ?%elem_of_nil|].
    split; [rewrite ?Hl; simpl; lia|done].
  - rewrite Peek_spec in Hex by done. injection Hex as <-.
    split; [done|]. exists [].
    split; [apply Hnone|]. split; [by intros e' ?%elem_of_nil|].
    split; [rewrite ?Hl; simpl; lia|done].
  - destruct (items c !! k) as [p|] eqn:Hk.
    + destruct (Remove_spec c k p Hwf Hk)
        as (e & c1 & He & Hke & Hrun & Hrm & Hwf1).
      destruct (wf_items _ Hwf k p Hk) as (Hp & _).
      destruct (removed_resident _ _ _ _ Hwf Hp He Hrm) as [_ Hperm].
      rewrite Hrun in Hex. injection Hex as <-.
      split; [apply Hrm|]. exists [e].
      split; [rewrite (rm_calls _ _ _ _ Hrm); by destruct (onEvict c)|].
      split; [|split; [|done]].
      * intros e' ->%list_elem_of_singleton.
        split; [apply list_elem_of_omap; by exists p|].
        apply Hout. by rewrite (rm_items _ _ _ _ Hrm), lookup_delete_eq.
      * rewrite <- (wf_resident_length c1 Hwf1), <- (wf_resident_length c Hwf).
        rewrite Hperm. simpl. lia.
    + unfold Remove in Hex. rewrite Hk in Hex. injection Hex as <-.
      split; [done|]. exists [].
      split; [apply Hnone|]. split; [by intros e' ?%elem_of_nil|].
      split; [rewrite ?Hl; simpl; lia|done].
  - destruct (evictList c) as [|p l _] eqn:Hl using rev_ind.
    + destruct (Oldest_empty c Hl) as [_ Hrun].
      rewrite Hrun in Hex. injection Hex as <-.
      split; [done|]. exists [].
      split; [apply Hnone|]. split; [by intros e' ?%elem_of_nil|].
      split; [rewrite ?Hl; simpl; lia|done].
    + destruct (Oldest_spec c l p Hwf Hl)
        as (e & c1 & He & _ & Hrun & Hrm & Hwf1).
      assert (p ∈ evictList c) as Hp.
      { rewrite Hl. apply elem_of_app. right. by left. }
      destruct (removed_resident _ _ _ _ Hwf Hp He Hrm) as [_ Hperm].
      rewrite Hrun in Hex. injection Hex as <-.
      split; [apply Hrm|]. exists [e].
      split; [rewrite (rm_calls _ _ _ _ Hrm); by destruct (onEvict c)|].
      split; [|split; [|done]].
      * intros e' ->%list_elem_of_singleton.
        split; [apply list_elem_of_omap; by exists p|].
        apply Hout. by rewrite (rm_items _ _ _ _ Hrm), lookup_delete_eq.
      * rewrite <- Hl.
        rewrite <- (wf_resident_length c1 Hwf1), <- (wf_resident_length c Hwf).
        rewrite Hperm. simpl. lia.
  - destruct (evictList c) as [|p l _] eqn:Hl using rev_ind.
    + destruct (Oldest_empty c Hl) as [Hrun _].
      rewrite Hrun in Hex. injection Hex as <-.
      split; [done|]. exists [].
      split; [apply Hnone|]. split; [by intros e' ?%elem_of_nil|].
      split; [rewrite ?Hl; simpl; lia|done].
    + destruct (Oldest_spec c l p Hwf Hl) as (e & c1 & _ & Hrun & _).
      rewrite Hrun in Hex. injection Hex as <-.
      split; [done|]. exists [].
      split; [apply Hnone|]. split; [by intros e' ?%elem_of_nil|].
      split; [rewrite ?Hl; simpl; lia|done].
  - rewrite Keys_spec in Hex by done. injection Hex as <-.
    split; [done|]. exists [].
    split; [apply Hnone|]. split; [by intros e' ?%elem_of_nil|].
    split; [rewrite ?Hl; simpl; lia|done].
  - injection Hex as <-. split; [done|]. exists [].
    split; [apply Hnone|]. split; [by intros e' ?%elem_of_nil|].
    split; [rewrite ?Hl; simpl; lia|done].
  - injection Hex as <-. split; [done|]. exists [].
    split; [apply Hnone|]. split; [by intros e' ?%elem_of_nil|].
    split; [rewrite ?Hl; simpl; lia|done].
  - destruct (decide (m ≤ 0)) as [Hm|Hm].
    { unfold Resize in Hex. by rewrite decide_True in Hex. }
    destruct (Resize_spec c m Hwf) as (gone & c1 & Hrun & Heb & Hwf1 & _);
      [lia|].
    rewrite Hrun in Hex. injection Hex as <-.
    destruct Heb as [Hl Hi _ Ht _ _ Hcb]. simpl in Hl, Hi, Ht, Hcb.
    assert (∀ q, q ∈ gone → q ∈ evictList c) as Hgone.
    { intros q Hq. rewrite Hl. apply elem_of_app. by right. }
    assert (∀ q, q ∈ reverse gone → q ∈ evictList c) as Hgone'.
    { intros q Hq. apply Hgone. by rewrite elem_of_reverse in Hq. }
    split; [done|]. exists (ents (heap c) (reverse gone)).
    split; [done|]. split; [|split; [|done]].
    + intros e He.
      split; [by destruct (ents_resident_key c _ e Hwf Hgone' He)|].
      apply Hout. rewrite Hi, decide_True; [done|].
      apply list_elem_of_fmap_2. rewrite ents_reverse in He.
      by rewrite elem_of_reverse in He.
    + rewrite Hl, length_app, ents_length_in, length_reverse by done.
      simpl. lia.
  - destruct (Purge_spec order c Hwf Hval)
      as (c1 & Hrun & Hl1 & _ & Hi1 & Ht1 & Hperm & _ & _ & Hcb1 & _).
    rewrite Hrun in Hex. injection Hex as <-.
    split; [done|]. exists (ents (heap c) order.*2).
    split; [done|]. split; [|split; [|done]].
    + intros e He. split; [by rewrite <- Hperm|].
      apply Hout. by rewrite Hi1, lookup_empty.
    + rewrite Hl1, Hperm, wf_resident_length by done. simpl. lia.
Qed.

(** ** Emptying the store from the old end *)

Lemma drain_spec l :
  ∀ c, wf c → evictList c = l →
  ∃ c',
    drain (length l) c
      = Ret (reverse ((λ e, (key e, value e)) <$> resident c)) c' ∧
    wf c' ∧ evictList c' = [] ∧ maxCost c' = maxCost c ∧
    calls c' = calls c ++
      (if onEvict c then call_of <$> reverse (resident c) else []).
Proof.
  induction l as [|p keep IH] using rev_ind; intros c Hwf Hl.
  - exists c. unfold resident. rewrite Hl. simpl.
    do 4 (split; [done|]). destruct (onEvict c); by rewrite app_nil_r.
  - destruct (Oldest_spec c keep p Hwf Hl)
      as (e & c1 & He & _ & Hrun & Hrm & Hwf1).
    assert (evictList c1 = keep) as Hl1.
    { rewrite (rm_list _ _ _ _ Hrm), Hl. apply Remove_back.
      rewrite <- Hl. apply Hwf. }
    assert (resident c = resident c1 ++ [e]) as Hres.
    { unfold resident. rewrite (rm_heap _ _ _ _ Hrm), Hl1, Hl, ents_app.
      by rewrite (ents_cons _ _ _ _ He). }
    destruct (IH c1 Hwf1 Hl1) as (c' & Hdrain & Hwf' & Hl' & Hm' & Ht').
    exists c'. rewrite length_app, Nat.add_1_r. cbn [length drain].
    rewrite Hrun, Hdrain, Hres, fmap_app, !reverse_app. simpl.
    do 3 (split; [done|]). split; [by rewrite Hm', (rm_maxCost _ _ _ _ Hrm)|].
    rewrite Ht', (rm_calls _ _ _ _ Hrm), (rm_onEvict _ _ _ _ Hrm).
    destruct (onEvict c); simpl; [|by rewrite !app_nil_r].
    by rewrite <- (assoc_L (++)).
Qed.

(** X11. A caller that calls [RemoveOldest] as many times as [Len] says
    gets the keys in the order of [Keys], oldest first, each with the value
    [Peek] would have found, and leaves an empty store with [Cost] 0.  The
    callback, when set, has been called for every entry, in that order. *)
Theorem drain_in_Keys_order c :
  reachable c →
  ∃ es c',
    es = reverse (resident c) ∧
    Keys c = Ret (Some <$> (key <$> es)) c ∧
    Len c = Ret (length es) c ∧
    drain (length es) c = Ret ((λ e, (key e, value e)) <$> es) c' ∧
    (∀ e, e ∈ es → Peek (key e) c = Ret (Some (value e)) c) ∧
    Len c' = Ret 0%nat c' ∧ Cost c' = Ret 0 c' ∧
    calls c' = calls c ++ (if onEvict c then call_of <$> es else []).
Proof.
  intros Hwf%reachable_by_wf.
  destruct (drain_spec (evictList c) c Hwf eq_refl)
    as (c' & Hdrain & Hwf' & Hl' & Hm' & Ht').
  destruct (wf_empty c' Hwf' Hl') as [_ Hc'].
  exists (reverse (resident c)), c'. split; [done|].
  split; [rewrite Keys_spec by done; by rewrite (fmap_reverse key)|].
  assert (length (reverse (resident c)) = length (evictList c)) as Hlen.
  { by rewrite length_reverse, wf_resident_length. }
  split; [unfold Len, List.Len; by rewrite Hlen|].
  split; [by rewrite Hlen, fmap_reverse|].
  split.
  { intros e He. rewrite elem_of_reverse in He.
    apply list_elem_of_omap in He as (p & Hp & He).
    destruct (wf_list _ Hwf p Hp) as (e' & He' & Hi). simplify_eq.
    rewrite Peek_spec by done. rewrite Hi. simpl. by rewrite He. }
  split; [unfold Len, List.Len; by rewrite Hl'|].
  split; [unfold Cost; by rewrite Hc'|done].
Qed.

(** ** Costs that do not wrap around *)

Lemma cost_le_sum (es : list (entry K V)) e :
  Forall (λ e, 0 ≤ cost e) es → e ∈ es → cost e ≤ sum_costs es.
Proof.
  induction 1 as [|e' es He' Hall IH]; [by intros ?%elem_of_nil|].
  pose proof (sum_costs_nonneg _ Hall).
  intros [->|Hin]%elem_of_cons; simpl; [lia|]. specialize (IH Hin). lia.
Qed.

(** X12. When every [Add] was called with a cost that is not negative and
    that the accumulator could take without wrapping around, every resident
    entry has a cost between 0 and the ceiling, and [Cost] is not
    negative: no entry is larger than the store, also after [Resize] has
    lowered the ceiling. *)
Theorem entries_within_ceiling c :
  reachable_by no_overflow c →
  Forall (λ e, 0 ≤ cost e ≤ maxCost c) (resident c) ∧
  0 ≤ evictListCost c.
Proof.
  intros Hreach. pose proof (reachable_by_wf _ _ Hreach) as Hwf.
  pose proof (reachable_budget _ Hreach) as Hb.
  pose proof (budget_cost c Hwf Hb) as Hcost.
  destruct Hb as (Hall & Hsum & _). split.
  - apply Forall_forall. intros e He.
    pose proof (proj1 (Forall_forall _ _) Hall e He).
    pose proof (cost_le_sum _ e Hall He). simpl in *. lia.
  - rewrite Hcost. by apply sum_costs_nonneg.
Qed.

Lemma reachable_small_budget c :
  reachable_by small_ceiling c → within_budget c.
Proof.
  induction 1 as [m cb c Hm Hnew|c o c' Hreach IH Hval Hsmall Hex].
  - unfold NewLRU in Hnew. destruct (decide (m ≤ 0)); [done|].
    injection Hnew as <-. unfold within_budget, resident. simpl.
    split; [done|]. split; [lia|apply Hm].
  - pose proof (reachable_by_wf _ _ Hreach) as Hwf.
    pose proof (budget_cost c Hwf IH) as Hcost.
    pose proof IH as (Hall & Hsum & Hmax).
    assert (no_overflow c o ∨
      ∃ k v cst p, o = OpAdd k v cst ∧ items c !! k = Some p) as [Hno|Hold].
    { destruct o as [k v cst|k|k|k|k| | | | | |m|order];
        try (left; exact I).
      simpl in Hsmall, Hex. destruct Hsmall as [Hcst Hceil].
      destruct (items c !! k) as [p|] eqn:Hk; [right; by exists k, v, cst, p|].
      left. split; [done|].
      destruct (decide (cst > maxCost c)) as [Hc|Hc].
      { by rewrite Add_new_panic in Hex. }
      unfold max_int64. lia. }
    + by eapply exec_budget.
    + destruct Hold as (k & v & cst & p & -> & Hk). simpl in Hex.
      destruct (Add_existing c k v cst p Hwf Hk) as (e & He & Hke & Hrun).
      rewrite Hrun in Hex. injection Hex as <-.
      apply budget_replaced; [done| |done|done].
      by destruct (wf_items _ Hwf k p Hk).
Qed.

(** X13. When every [Add] is called with a cost that is not negative, on a
    store whose ceiling is at most [2^62 - 1] at that time, the accumulator
    never wraps around: after every operation [Cost] is the sum of the costs
    of the resident entries and is within the ceiling. *)
Theorem capacity_with_small_ceilings c :
  reachable_by small_ceiling c →
  Cost c = Ret (sum_costs (resident c)) c ∧
  0 ≤ evictListCost c ≤ maxCost c.
Proof.
  intros Hreach. pose proof (reachable_by_wf _ _ Hreach) as Hwf.
  pose proof (reachable_small_budget _ Hreach) as Hb.
  pose proof (budget_cost c Hwf Hb) as Hcost.
  destruct Hb as (Hall & Hsum & _).
  pose proof (sum_costs_nonneg _ Hall).
  split; [unfold Cost; by rewrite Hcost|lia].
Qed.

End proofs.

(** * The operations on concrete stores *)

Lemma demo_reachable_no_overflow : reachable_by no_overflow demo.
Proof.
  eapply (reach_step _ _ (OpAdd 2 200 3)).
  - eapply (reach_step _ _ (OpAdd 1 100 2)).
    + by apply (reach_new _ 10 true).
    + by vm_compute.
    + by vm_compute.
    + reflexivity.
  - by vm_compute.
  - by vm_compute.
  - reflexivity.
Qed.

Lemma demo_reachable_no_removal : reachable_by no_removal demo.
Proof.
  eapply (reach_step _ _ (OpAdd 2 200 3)).
  - eapply (reach_step _ _ (OpAdd 1 100 2)).
    + by apply (reach_new _ 10 true).
    + by vm_compute.
    + by vm_compute.
    + reflexivity.
  - by vm_compute.
  - by vm_compute.
  - reflexivity.
Qed.

Lemma demo_reachable : reachable demo.
Proof.
  apply (reachable_by_weaken no_overflow); [done|].
  apply demo_reachable_no_overflow.
Qed.

Lemma overflow_store_reachable : reachable_by nonneg_costs overflow_store.
Proof.
  eapply (reach_step _ _ (OpRemove 2)).
  - eapply (reach_step _ _ (OpAdd 3 tt 1)).
    + eapply (reach_step _ _ (OpAdd 2 tt (2 ^ 62))).
      * eapply (reach_step _ _ (OpAdd 1 tt (2 ^ 62))).
        -- by apply (reach_new _ (2 ^ 62) false).
        -- by vm_compute.
        -- by vm_compute.
        -- vm_compute; reflexivity.
      * by vm_compute.
      * by vm_compute.
      * vm_compute; reflexivity.
    + by vm_compute.
    + by vm_compute.
    + vm_compute; reflexivity.
  - by vm_compute.
  - by vm_compute.
  - vm_compute; reflexivity.
Qed.

(** C1, as stated, fails.  With only "costs are not negative" the
    accumulator can wrap around: after [NewLRU(1<<62, nil)],
    [Add(1, nil, 1<<62)], [Add(2, nil, 1<<62)], [Add(3, nil, 1)] and
    [Remove(2)], [Cost()] is [1<<62 + 1], above [maxCost = 1<<62]. *)
Lemma accumulator_overflow_breaks_capacity :
  ¬ (∀ c : LRU Z unit,
       reachable_by nonneg_costs c → evictListCost c ≤ maxCost c).
Proof.
  intros Hclaim. specialize (Hclaim overflow_store overflow_store_reachable).
  vm_compute in Hclaim. by apply Hclaim.
Qed.

Lemma raised_store_reachable : reachable raised_store.
Proof.
  eapply (reach_step _ _ (OpRemove 2)).
  - eapply (reach_step _ _ (OpAdd 3 tt 100)).
    + eapply (reach_step _ _ (OpAdd 2 tt (2 ^ 62))).
      * eapply (reach_step _ _ (OpAdd 1 tt (2 ^ 62))).
        -- by apply (reach_new _ (2 ^ 62) false).
        -- by vm_compute.
        -- by vm_compute.
        -- vm_compute; reflexivity.
      * by vm_compute.
      * by vm_compute.
      * vm_compute; reflexivity.
    + by vm_compute.
    + by vm_compute.
    + vm_compute; reflexivity.
  - by vm_compute.
  - by vm_compute.
  - vm_compute; reflexivity.
Qed.

(** C6, as stated, fails in "raising the ceiling never evicts".  After
    [NewLRU(1<<62, nil)], [Add(1, nil, 1<<62)], [Add(2, nil, 1<<62)],
    [Add(3, nil, 100)] and [Remove(2)], [Cost()] is [1<<62 + 100] and
    [maxCost] is [1<<62]; [Resize(1<<62 + 50)] raises the ceiling and
    returns 1: it evicts the entry of key 1. *)
Lemma raising_the_ceiling_can_evict :
  ¬ (∀ (c : LRU Z unit) m n c',
       reachable c → maxCost c ≤ m → Resize m c = Ret n c' → n = 0%nat).
Proof.
  intros Hclaim.
  assert (Resize (2 ^ 62 + 50) raised_store = Ret 1%nat
    (mkLRU (2 ^ 62 + 50) [2]%nat 100 (<[3 := 2%nat]> ∅) false
       [Entry 1 tt (2 ^ 62); Entry 2 tt (2 ^ 62); Entry 3 tt 100] []))
    as Hrun by (vm_compute; reflexivity).
  assert (maxCost raised_store ≤ 2 ^ 62 + 50) as Hraise by (by vm_compute).
  pose proof (Hclaim _ _ _ _ raised_store_reachable Hraise Hrun) as Hzero.
  discriminate.
Qed.

(** The capacity invariant on [demo]: [Cost()] is 5, under the ceiling 10. *)
Lemma capacity_invariant_witness :
  reachable_by no_overflow demo ∧ reachable_by no_removal demo ∧
  Cost demo = Ret 5 demo ∧ evictListCost demo ≤ maxCost demo.
Proof.
  split; [apply demo_reachable_no_overflow|].
  split; [apply demo_reachable_no_removal|].
  destruct (proj1 (capacity_invariant demo) demo_reachable_no_overflow)
    as (Hcost & _ & _).
  destruct (proj2 (capacity_invariant demo) demo_reachable_no_removal)
    as (_ & Hle).
  split; [exact Hcost|exact Hle].
Defined.

(** Re-adding on [demo]: key 1 is added again, with cost 99. *)
Lemma Add_resident_key_witness :
  reachable demo ∧ Contains 1 demo = Ret true demo ∧
  ∃ c', Add 1 111 99 demo = Ret 0%nat c' ∧
        Peek 1 c' = Ret (Some 111) c' ∧ Cost c' = Ret 5 c' ∧
        Len c' = Ret 2%nat c' ∧ calls c' = [].
Proof.
  split; [apply demo_reachable|]. split; [reflexivity|].
  destruct (Add_resident_key demo 1 111 99 demo_reachable eq_refl)
    as (e & c' & Hadd & _ & _ & _ & Hpeek & Hcost & Hlen & _ & _ & Hcalls).
  exists c'. split; [exact Hadd|]. split; [exact Hpeek|].
  split; [exact Hcost|]. split; [exact Hlen|exact Hcalls].
Defined.

(** Re-adding above the ceiling on [demo], whose ceiling is 10: key 1 is
    added again with cost 99. *)
Lemma resident_Add_never_fails_witness :
  reachable demo ∧ Contains 1 demo = Ret true demo ∧ 99 > maxCost demo ∧
  ∃ c', Add 1 111 99 demo = Ret 0%nat c' ∧ Peek 1 c' = Ret (Some 111) c'.
Proof.
  split; [apply demo_reachable|]. split; [reflexivity|].
  split; [reflexivity|].
  exact (resident_Add_never_fails demo 1 111 99 demo_reachable eq_refl).
Defined.

(** An oversized entry on [demo]: the new key 3 with cost 11. *)
Lemma Add_oversized_panics_witness :
  Contains 3 demo = Ret false demo ∧ 11 > maxCost demo ∧
  Add 3 300 11 demo = Panic demo.
Proof.
  split; [reflexivity|]. split; [reflexivity|].
  exact (Add_oversized_panics demo 3 300 11 eq_refl eq_refl).
Defined.

(** The oldest entry of [demo], which is that of key 1, and of a new
    store. *)
Lemma GetOldest_RemoveOldest_agree_witness :
  reachable demo ∧ evictList demo ≠ [] ∧
  (∃ c', GetOldest demo = Ret (Some (1, 100)) demo ∧
         RemoveOldest demo = Ret (Some (1, 100)) c') ∧
  GetOldest (mkLRU (K := Z) (V := Z) 10 [] 0 ∅ true [] [])
    = Ret None (mkLRU 10 [] 0 ∅ true [] []).
Proof.
  split; [apply demo_reachable|]. split; [discriminate|]. split.
  - destruct (proj1 (GetOldest_RemoveOldest_agree demo demo_reachable))
      as (p & e & c' & Hlast & He & _ & Hget & Hrm & _); [discriminate|].
    vm_compute in Hlast. injection Hlast as <-.
    vm_compute in He. injection He as <-.
    exists c'. split; [exact Hget|exact Hrm].
  - refine (proj1 (proj2 (GetOldest_RemoveOldest_agree
      (mkLRU 10 [] 0 ∅ true [] []) _) eq_refl)).
    by apply (reach_new _ 10 true).
Defined.

(** Resizing [demo], which holds costs 2 (older) and 3: [Resize(0)]
    panics, [Resize(3)] evicts one entry. *)
Lemma Resize_behaviour_witness :
  reachable demo ∧ 0 ≤ 0 ∧ 0 < 3 ∧
  Resize 0 demo = Panic demo ∧
  ∃ (gone : list ptr) c',
    Resize 3 demo = Ret (length gone) c' ∧
    maxCost c' = 3 ∧ evictListCost c' ≤ 3 ∧ gone ≠ [].
Proof.
  split; [apply demo_reachable|]. split; [lia|]. split; [lia|]. split.
  - apply (proj1 (Resize_behaviour demo 0 demo_reachable)). lia.
  - destruct (proj2 (Resize_behaviour demo 3 demo_reachable))
      as (gone & c' & Hrun & _ & Hmax & Hle & _ & _ & _ & Hne); [lia|].
    exists gone, c'. split; [exact Hrun|]. split; [exact Hmax|].
    split; [exact Hle|]. apply Hne. vm_compute. reflexivity.
Defined.

(** Purging [demo], with the map iterated in the order of [map_to_list]. *)
Lemma Purge_complete_witness :
  reachable demo ∧ map_to_list (items demo) ≡ₚ map_to_list (items demo) ∧
  ∃ c' es, Purge (map_to_list (items demo)) demo = Ret tt c' ∧
           Len c' = Ret 0%nat c' ∧ Cost c' = Ret 0 c' ∧
           es ≡ₚ resident demo ∧ calls c' = call_of <$> es.
Proof.
  split; [apply demo_reachable|]. split; [reflexivity|].
  destruct (Purge_complete demo (map_to_list (items demo)) demo_reachable
    (Permutation_refl _)) as (c' & es & Hrun & Hlen & Hcost & _ & Hperm & Hcalls).
  exists c', es. split; [exact Hrun|]. split; [exact Hlen|].
  split; [exact Hcost|]. split; [exact Hperm|exact Hcalls].
Defined.

(** The keys of [demo], which is a new store after the keys 1 and 2 were
    added. *)
Lemma Keys_oldest_to_newest_witness :
  reachable demo ∧
  NewLRU 10 true = Some (mkLRU (K := Z) (V := Z) 10 [] 0 ∅ true [] []) ∧
  NoDup [1; 2] ∧
  AddAll [(1, 100, 2); (2, 200, 3)] (mkLRU 10 [] 0 ∅ true [] [])
    = Ret 0%nat demo ∧
  Keys demo = Ret [Some 1; Some 2] demo ∧
  Keys demo = Ret (Some <$> reverse (key <$> resident demo)) demo.
Proof.
  assert (NoDup [1; 2]) as Hnd.
  { apply (bool_decide_unpack _). vm_compute. exact I. }
  split; [apply demo_reachable|]. split; [reflexivity|].
  split; [exact Hnd|]. split; [reflexivity|]. split.
  - exact (proj2 Keys_oldest_to_newest 10 true (mkLRU 10 [] 0 ∅ true [] [])
      [(1, 100, 2); (2, 200, 3)] demo eq_refl Hnd eq_refl).
  - exact (proj1 (proj1 Keys_oldest_to_newest demo demo_reachable)).
Defined.

(** Peeking on [demo], and on a store with room for two entries of cost 1
    to which the keys 1, 2 and 3 are added. *)
Lemma Peek_Contains_do_not_reorder_witness :
  reachable demo ∧
  (∃ r c', Peek 1 demo = Ret r demo ∧ Get 1 demo = Ret r c') ∧
  ∃ c1 c2 c3,
    Add 1 100 1 (mkLRU (K := Z) (V := Z) 2 [] 0 ∅ true [] []) = Ret 0%nat c1 ∧
    Add 2 200 1 c1 = Ret 0%nat c2 ∧
    Peek 1 c2 = Ret (Some 100) c2 ∧
    Add 3 300 1 c2 = Ret 1%nat c3 ∧
    calls c3 = [(1, 100, 1)] ∧
    Keys c3 = Ret [Some 2; Some 3] c3.
Proof.
  split; [apply demo_reachable|]. split.
  - destruct (proj1 Peek_Contains_do_not_reorder demo 1 demo_reachable)
      as (r & c' & Hpeek & Hget & _).
    exists r, c'. split; [exact Hpeek|exact Hget].
  - destruct (proj2 Peek_Contains_do_not_reorder 2 true
      (mkLRU 2 [] 0 ∅ true [] []) 1 2 3 100 200 300 1 1 1)
      as (c1 & c2 & c3 & H1 & H2 & H3 & H4 & H5 & _ & _ & H8);
      [reflexivity|discriminate|discriminate|discriminate|
       lia|lia|lia|lia|lia|lia|vm_compute; discriminate|].
    exists c1, c2, c3. repeat (split; [assumption|]). exact H8.
Defined.

(** The README's example. *)
Lemma Add_256_of_cost_2_witness :
  length readme_adds = 256%nat ∧ NoDup readme_adds.*1.*1 ∧
  Forall (λ x, x.2 = 2) readme_adds ∧
  ∃ c0 c, NewLRU 128 false = Some c0 ∧
          AddAll readme_adds c0 = Ret 192%nat c ∧ Len c = Ret 64%nat c.
Proof.
  assert (NoDup readme_adds.*1.*1) as Hnd.
  { apply (bool_decide_unpack _). vm_compute. exact I. }
  assert (Forall (λ x, x.2 = 2) readme_adds) as Htwo.
  { apply (bool_decide_unpack _). vm_compute. exact I. }
  split; [reflexivity|]. split; [exact Hnd|]. split; [exact Htwo|].
  exact (Add_256_of_cost_2 false readme_adds eq_refl Hnd Htwo).
Defined.

(** * Further properties on concrete stores *)

Lemma demo_reachable_small_ceiling : reachable_by small_ceiling demo.
Proof.
  eapply (reach_step _ _ (OpAdd 2 200 3)).
  - eapply (reach_step _ _ (OpAdd 1 100 2)).
    + by apply (reach_new _ 10 true).
    + by vm_compute.
    + by vm_compute.
    + reflexivity.
  - by vm_compute.
  - by vm_compute.
  - reflexivity.
Qed.

Lemma new_store_reachable :
  reachable (mkLRU (K := Z) (V := Z) 10 [] 0 ∅ true [] []).
Proof. by apply (reach_new _ 10 true). Qed.

(** [NewLRU(0, cb)] fails; [NewLRU(10, cb)] gives an empty store. *)
Lemma new_and_empty_store_witness :
  0 ≤ 0 ∧ NewLRU (K := Z) (V := Z) 0 true = None ∧
  NewLRU 10 true = Some (mkLRU (K := Z) (V := Z) 10 [] 0 ∅ true [] []) ∧
  reachable (mkLRU (K := Z) (V := Z) 10 [] 0 ∅ true [] []) ∧
  Len (mkLRU (K := Z) (V := Z) 10 [] 0 ∅ true [] [])
    = Ret 0%nat (mkLRU 10 [] 0 ∅ true [] []) ∧
  Keys (mkLRU (K := Z) (V := Z) 10 [] 0 ∅ true [] [])
    = Ret [] (mkLRU 10 [] 0 ∅ true [] []).
Proof.
  split; [lia|].
  split; [apply (proj2 (proj1 (new_and_empty_store (K := Z) (V := Z)) 0 true));
          lia|].
  split; [reflexivity|]. split; [apply new_store_reachable|].
  split.
  - exact (proj2 (proj2 (proj1 (proj2 (new_and_empty_store (K := Z) (V := Z)))
      10 true _ eq_refl))).
  - exact (proj1 (proj2 (proj2 (proj2 (new_and_empty_store (K := Z) (V := Z))) _
      new_store_reachable eq_refl))).
Defined.

(** [Get] on [demo]: key 3 is missing, key 1 is found and promoted. *)
Lemma Get_behaviour_witness :
  reachable demo ∧ Contains 3 demo = Ret false demo ∧
  Contains 1 demo = Ret true demo ∧
  Get 3 demo = Ret None demo ∧
  ∃ c', Get 1 demo = Ret (Some 100) c' ∧
        Keys c' = Ret [Some 2; Some 1] c'.
Proof.
  split; [apply demo_reachable|]. split; [reflexivity|]. split; [reflexivity|].
  split; [exact (proj1 (Get_behaviour demo 3 demo_reachable) eq_refl)|].
  destruct (proj2 (Get_behaviour demo 1 demo_reachable) eq_refl)
    as (e & c' & _ & _ & Hget & _ & Hkeys & _).
  exists c'. split; [|exact Hkeys].
  pose proof Hget as Hval. vm_compute in Hval. injection Hval as Hval _.
  rewrite Hget. do 2 f_equal. symmetry. exact Hval.
Defined.

(** [Add] of the new key 3 with cost 6 on [demo], which holds 5 of 10: the
    oldest entry is evicted. *)
Lemma Add_new_key_witness :
  reachable demo ∧ in_int64 6 ∧ Contains 3 demo = Ret false demo ∧
  6 ≤ maxCost demo ∧
  ∃ (gone : list ptr) c',
    Add 3 300 6 demo = Ret (length gone) c' ∧
    Peek 3 c' = Ret (Some 300) c' ∧ evictListCost c' ≤ maxCost c'.
Proof.
  assert (in_int64 6) as H6 by (by vm_compute).
  split; [apply demo_reachable|]. split; [exact H6|]. split; [reflexivity|].
  split; [by vm_compute|].
  destruct (Add_new_key demo 3 300 6 demo_reachable H6 eq_refl)
    as (keep & gone & c' & _ & Hadd & _ & _ & _ & _ & Hle & _ & _ & Hpeek & _);
    [by vm_compute|].
  exists gone, c'. split; [exact Hadd|]. split; [exact Hpeek|exact Hle].
Defined.

(** [Add] of the key 3 on [demo], then [Peek]. *)
Lemma Add_then_lookup_witness :
  reachable demo ∧ in_int64 6 ∧
  ∃ n c', Add 3 300 6 demo = Ret n c' ∧ Peek 3 c' = Ret (Some 300) c'.
Proof.
  assert (in_int64 6) as H6 by (by vm_compute).
  split; [apply demo_reachable|]. split; [exact H6|].
  eexists _, _. split; [vm_compute; reflexivity|].
  refine (proj1 (proj2 (Add_then_lookup demo 3 300 6 _ _ demo_reachable H6 _))).
  vm_compute. reflexivity.
Defined.

(** On [demo], whose ceiling is 10, [Add] of the new key 3 with cost 11 and
    [Resize(0)] do not return. *)
Lemma calls_that_fail_witness :
  reachable demo ∧ valid_op demo (OpAdd 3 300 11) ∧
  valid_op demo (OpResize 0) ∧
  exec (OpAdd 3 300 11) demo = None ∧ exec (OpResize 0) demo = None.
Proof.
  assert (valid_op demo (OpAdd 3 300 11)) as Hv1 by (by vm_compute).
  assert (valid_op demo (OpResize 0)) as Hv2 by (by vm_compute).
  split; [apply demo_reachable|]. split; [exact Hv1|]. split; [exact Hv2|].
  split.
  - apply (proj2 (calls_that_fail demo _ demo_reachable Hv1)). left.
    exists 3, 300, 11. split; [reflexivity|]. split; [reflexivity|].
    by vm_compute.
  - apply (proj2 (calls_that_fail demo _ demo_reachable Hv2)). right.
    exists 0. split; [reflexivity|lia].
Defined.

(** [Remove] on [demo]: key 3 is missing, key 1 is removed. *)
Lemma Remove_behaviour_witness :
  reachable demo ∧ Contains 3 demo = Ret false demo ∧
  Contains 1 demo = Ret true demo ∧
  Remove 3 demo = Ret false demo ∧
  ∃ c', Remove 1 demo = Ret true c' ∧ Cost c' = Ret 3 c' ∧
        Remove 1 c' = Ret false c'.
Proof.
  split; [apply demo_reachable|]. split; [reflexivity|]. split; [reflexivity|].
  split; [exact (proj1 (Remove_behaviour demo 3 demo_reachable) eq_refl)|].
  destruct (proj2 (Remove_behaviour demo 1 demo_reachable) eq_refl)
    as (e & c' & _ & _ & Hrm & _ & _ & _ & _ & _ & _ & Hagain).
  exists c'. split; [exact Hrm|]. split; [|exact Hagain].
  vm_compute in Hrm. by injection Hrm as <-.
Defined.

(** [Add] of the key 3 with cost 4 on [demo], which evicts nothing, then
    [Remove] of it. *)
Lemma Add_then_Remove_witness :
  reachable demo ∧ in_int64 4 ∧ Contains 3 demo = Ret false demo ∧
  ∃ c1 c2, Add 3 300 4 demo = Ret 0%nat c1 ∧
           Remove 3 c1 = Ret true c2 ∧
           evictList c2 = evictList demo ∧ items c2 = items demo ∧
           evictListCost c2 = 5.
Proof.
  assert (in_int64 4) as H4 by (by vm_compute).
  split; [apply demo_reachable|]. split; [exact H4|]. split; [reflexivity|].
  eexists. 
  assert (Add 3 300 4 demo = Ret 0%nat
    (mkLRU 10 [2; 1; 0]%nat 9
       (<[3 := 2%nat]> (<[2 := 1%nat]> (<[1 := 0%nat]> ∅))) true
       [Entry 1 100 2; Entry 2 200 3; Entry 3 300 4] [])) as Hadd
    by (vm_compute; reflexivity).
  destruct (Add_then_Remove demo 3 300 4 _ demo_reachable H4 eq_refl Hadd)
    as (c2 & Hrm & Hl & Hi & Hc & _).
  exists c2. split; [exact Hadd|]. split; [exact Hrm|].
  split; [exact Hl|]. split; [exact Hi|exact Hc].
Defined.

(** [Len], [Keys] and the index of [demo]. *)
Lemma Len_Keys_index_witness :
  reachable demo ∧
  ∃ ks, Keys demo = Ret (Some <$> ks) demo ∧
        Len demo = Ret (length ks) demo ∧ size (items demo) = length ks.
Proof.
  split; [apply demo_reachable|].
  destruct (Len_Keys_index demo demo_reachable)
    as (ks & Hkeys & _ & Hlen & Hsize & _).
  exists ks. split; [exact Hkeys|]. split; [exact Hlen|exact Hsize].
Defined.

(** [Cost] of [demo]. *)
Lemma Cost_is_wrapped_sum_witness :
  reachable demo ∧
  Cost demo = Ret (wrap64 (sum_costs (resident demo))) demo ∧
  0 < maxCost demo.
Proof.
  split; [apply demo_reachable|].
  exact (Cost_is_wrapped_sum demo demo_reachable).
Defined.

(** [Remove] of key 1 on [demo], whose callback is set. *)
Lemma callback_accounting_witness :
  reachable demo ∧ valid_op demo (OpRemove 1) ∧
  ∃ c', exec (OpRemove 1) demo = Some c' ∧
        onEvict c' = onEvict demo ∧
        ∃ left, calls c' = calls demo ++ (call_of <$> left) ∧
                length left = 1%nat.
Proof.
  split; [apply demo_reachable|]. split; [exact I|].
  assert (exec (OpRemove 1) demo = Some
    (mkLRU 10 [1]%nat 3 (<[2 := 1%nat]> ∅) true
       [Entry 1 100 2; Entry 2 200 3] [(1, 100, 2)])) as Hex
    by (vm_compute; reflexivity).
  destruct (callback_accounting demo (OpRemove 1) _ demo_reachable I Hex)
    as (Hcb & left & Hcalls & _ & Hlen & _).
  eexists. split; [exact Hex|]. split; [exact Hcb|].
  exists left. split; [exact Hcalls|].
  simpl in Hlen. lia.
Defined.

(** Emptying [demo] with two calls of [RemoveOldest]. *)
Lemma drain_in_Keys_order_witness :
  reachable demo ∧
  ∃ c', drain 2 demo = Ret [(1, 100); (2, 200)] c' ∧
        Len c' = Ret 0%nat c' ∧ Cost c' = Ret 0 c'.
Proof.
  split; [apply demo_reachable|].
  destruct (drain_in_Keys_order demo demo_reachable)
    as (es & c' & -> & _ & _ & Hdrain & _ & Hlen & Hcost & _).
  exists c'. split; [exact Hdrain|]. split; [exact Hlen|exact Hcost].
Defined.

(** The costs of the entries of [demo]. *)
Lemma entries_within_ceiling_witness :
  reachable_by no_overflow demo ∧
  Forall (λ e, 0 ≤ cost e ≤ maxCost demo) (resident demo) ∧
  0 ≤ evictListCost demo.
Proof.
  split; [apply demo_reachable_no_overflow|].
  exact (entries_within_ceiling demo demo_reachable_no_overflow).
Defined.

(** [Cost] of [demo], whose ceiling is 10. *)
Lemma capacity_with_small_ceilings_witness :
  reachable_by small_ceiling demo ∧
  Cost demo = Ret (sum_costs (resident demo)) demo ∧
  0 ≤ evictListCost demo ≤ maxCost demo.
Proof.
  split; [apply demo_reachable_small_ceiling|].
  exact (capacity_with_small_ceilings demo demo_reachable_small_ceiling).
Defined.
